(** * ppt-worker: placeholder rendering across styled runs

    A shallow embedding of [src/replace.py]: the placeholder resolver
    ([TemplateRenderer.cal_render_position]) and the run reflow engine
    ([PptProcessor.replace_paragraph_runs] with its two helpers), followed by
    the properties of the specification that concern them.

    Conventions of the model.
    - A Python [str] is a [list ascii]; a character is a code point, and the
      model covers the code points 0..255.  [len] is [py_len], an element of
      [Z] like every Python [int].
    - A Python [float] is an IEEE 754 binary64 value, a [spec_float] with
      precision 53 and maximal exponent 1024.
    - A function that can raise returns an [option]; [None] stands for the
      raised exception.  The [while] loop of [_copy_non_placeholder] takes a
      fuel argument and returns [None] when it is exhausted.
    - A dict is a [gmap].  A list updated by index is a list with [alter],
      and the update raises [IndexError] out of range.  A slot refers to its
      run by the position of the run in the paragraph.
    - The text of a run is what [run.text] reads.  An assignment to
      [run.text] goes through the setter of python-pptx, which stores the
      text with every control character other than the tab and the line feed
      written as [_xHHHH_]. *)

From Stdlib Require Import ZArith Ascii String Floats.SpecFloat.
From stdpp Require Import gmap strings list sorting.
Local Open Scope Z_scope.

(** ** Python strings, slices and whitespace *)

Abbreviation text := (list ascii).

Definition txt (s : string) : text := list_ascii_of_string s.

Definition py_len {A} (s : list A) : Z := Z.of_nat (length s).

(** Normalisation of one bound of a slice [s[start:stop]] for a sequence of
    length [n]: a negative bound counts from the end, and every bound is
    clamped to [0..n]. *)
Definition slice_index (n i : Z) : Z :=
  if i <? 0 then Z.max (i + n) 0 else Z.min i n.

(** [s[start:stop]] *)
Definition py_slice {A} (s : list A) (start stop : Z) : list A :=
  let lo := slice_index (py_len s) start in
  let hi := slice_index (py_len s) stop in
  take (Z.to_nat (hi - lo)) (drop (Z.to_nat lo) s).

(** [s[start:]] *)
Definition py_slice_from {A} (s : list A) (start : Z) : list A :=
  drop (Z.to_nat (slice_index (py_len s) start)) s.

(** [str.isspace] on the code points below 256. *)
Definition isspace (c : ascii) : bool :=
  let n := nat_of_ascii c in
  ((9 <=? n) && (n <=? 13) || (28 <=? n) && (n <=? 32)
   || (n =? 133) || (n =? 160))%nat.

Fixpoint lstrip (s : text) : text :=
  match s with
  | [] => []
  | c :: s' => if isspace c then lstrip s' else s
  end.

Definition rstrip (s : text) : text := reverse (lstrip (reverse s)).

(** [s.strip()] *)
Definition strip (s : text) : text := rstrip (lstrip s).

(** ** Python floats: the arithmetic of [round(part_len / total * rend_len)] *)

Definition py_int_to_float (n : Z) : spec_float :=
  binary_normalize 53 1024 n 0 false.

(** [a / b] on two ints; [ZeroDivisionError] when [b] is zero.  Both
    conversions are exact below [2 ^ 53], where the quotient of the two
    floats is the correctly rounded quotient that CPython computes. *)
Definition py_truediv (a b : Z) : option spec_float :=
  if decide (b = 0) then None
  else Some (SFdiv 53 1024 (py_int_to_float a) (py_int_to_float b)).

(** [x * n] for a float [x] and an int [n] *)
Definition py_float_mul_int (x : spec_float) (n : Z) : spec_float :=
  SFmul 53 1024 x (py_int_to_float n).

(** [m / 2 ^ k] rounded to the nearest integer, ties to the even one. *)
Definition round_half_even (m k : Z) : Z :=
  let q := Z.shiftr m k in
  let r := Z.land m (Z.ones k) in
  let half := Z.shiftl 1 (k - 1) in
  match r ?= half with
  | Lt => q
  | Gt => q + 1
  | Eq => if Z.even q then q else q + 1
  end.

(** [round(x)] with one argument: the nearest int, ties to even;
    [OverflowError] on an infinity and [ValueError] on a NaN. *)
Definition py_round (x : spec_float) : option Z :=
  match x with
  | S754_zero _ => Some 0
  | S754_finite s m e =>
      let v := if 0 <=? e then Z.shiftl (Zpos m) e
               else round_half_even (Zpos m) (- e) in
      Some (if s then - v else v)
  | S754_infinity _ | S754_nan => None
  end.

(** ** The regular expression [\{\{(.+?)}}] *)

Definition is_char (d c : ascii) : bool := bool_decide (c = d).

Definition lbrace : ascii := "{"%char.
Definition rbrace : ascii := "}"%char.
Definition newline : ascii := "010"%char.

(** [s] starts with the two closing braces. *)
Definition closes (s : text) : bool :=
  match s with
  | c1 :: c2 :: _ => is_char rbrace c1 && is_char rbrace c2
  | _ => false
  end.

(** The lazy repetition after its first character: at each position the
    closing braces are tried first; otherwise [.] consumes one more character,
    which must not be a line feed.  The result is the number of further
    characters of the group. *)
Fixpoint lazy_dots (s : text) : option nat :=
  if closes s then Some 0%nat
  else match s with
       | [] => None
       | c :: s' => if is_char newline c then None else S <$> lazy_dots s'
       end.

(** A match of the whole pattern at the head of [s]: the length of group 1. *)
Definition match_here (s : text) : option nat :=
  match s with
  | c1 :: c2 :: c :: s' =>
      if is_char lbrace c1 && is_char lbrace c2 && negb (is_char newline c)
      then S <$> lazy_dots s'
      else None
  | _ => None
  end.

(** A match object: [m.start()], [m.end()] and [m.group(1)]. *)
Record Match := {
  m_start : Z;
  m_end : Z;
  m_group1 : text;
}.

(** [finditer]: the scan of the text from left to right.  [s] is the text
    from position [pos] on; after a match, [skip] counts the characters still
    inside it, where no new match may start. *)
Fixpoint finditer_from (s : text) (pos : Z) (skip : nat) : list Match :=
  match s with
  | [] => []
  | _ :: s' =>
      match skip with
      | S k => finditer_from s' (pos + 1) k
      | O =>
          match match_here s with
          | Some g =>
              {| m_start := pos;
                 m_end := pos + Z.of_nat g + 4;
                 m_group1 := take g (drop 2 s) |}
              :: finditer_from s' (pos + 1) (g + 3)
          | None => finditer_from s' (pos + 1) 0
          end
      end
  end.

Definition finditer (all_text : text) : list Match :=
  finditer_from all_text 0 0.

(** ** TemplateRenderer *)

(** One entry of [placeholder_list]. *)
Record Placeholder := {
  original_start : Z;
  original_length : Z;
  rendered_start : Z;
  rendered_length : Z;
  placeholder : text;
  rendered_value : text;
}.

Module TemplateRenderer.
Section Renderer.
(** The values of the context and their conversion [str]. *)
Context {Value : Type} (py_str : Value -> text).

(** [str(self.context.get(placeholder_text, ''))] *)
Definition context_get (context : gmap text Value) (key : text) : text :=
  match context !! key with
  | Some v => py_str v
  | None => []
  end.

(** The body of the loop over the matches; the state is
    [(placeholder_list, rendered_text, last_end)]. *)
Fixpoint render_matches (context : gmap text Value) (all_text : text)
    (matches : list Match) (placeholder_list : list Placeholder)
    (rendered_text : text) (last_end : Z)
    : list Placeholder * text * Z :=
  match matches with
  | [] => (placeholder_list, rendered_text, last_end)
  | m :: matches' =>
      let rendered_text :=
        rendered_text ++ py_slice all_text last_end (m_start m) in
      let placeholder_text := strip (m_group1 m) in
      let rendered_value := context_get context placeholder_text in
      let ph := {| original_start := m_start m;
                   original_length := m_end m - m_start m;
                   rendered_start := py_len rendered_text;
                   rendered_length := py_len rendered_value;
                   placeholder := placeholder_text;
                   rendered_value := rendered_value |} in
      render_matches context all_text matches'
        (placeholder_list ++ [ph]) (rendered_text ++ rendered_value)
        (m_end m)
  end.

Definition cal_render_position (context : gmap text Value)
    (all_text : text) : text * list Placeholder :=
  let matches := finditer all_text in
  let '(placeholder_list, rendered_text, last_end) :=
    render_matches context all_text matches [] [] 0 in
  (rendered_text ++ py_slice_from all_text last_end, placeholder_list).
End Renderer.
End TemplateRenderer.

(** ** PptProcessor *)

(** A run of a paragraph: its mutable text and its style, which this code
    never touches. *)
Record Run (Style : Type) := {
  run_text : text;
  run_style : Style;
}.
Arguments run_text {Style} _.
Arguments run_style {Style} _.

(** The characters that the text setter of a python-pptx run escapes: the
    code points 0 to 8 and 11 to 31, that is every control character below
    32 but the horizontal tab (9) and the line feed (10). *)
Definition is_ctrl_char (c : ascii) : bool :=
  let n := nat_of_ascii c in
  ((n <=? 8) || (11 <=? n) && (n <=? 31))%nat.

(** One upper-case hexadecimal digit, the format [%X] of a number below
    16. *)
Definition hex_digit (d : nat) : ascii :=
  ascii_of_nat (if (d <? 10)%nat then 48 + d else 55 + d).

(** The format [_x%04X_] of a code point, which is below 256 here: an
    underscore, an [x], four upper-case hexadecimal digits and an
    underscore. *)
Definition escape_code (n : nat) : text :=
  txt "_x"
  ++ [hex_digit (n / 4096 mod 16); hex_digit (n / 256 mod 16);
      hex_digit (n / 16 mod 16); hex_digit (n mod 16)]
  ++ txt "_".

(** [_escape_ctrl_chars] of python-pptx, a [re.sub] over the character class
    of [is_ctrl_char]: each such character is replaced by its
    [escape_code], every other character is kept. *)
Definition _escape_ctrl_chars (s : text) : text :=
  concat
    (map (fun c => if is_ctrl_char c then escape_code (nat_of_ascii c)
                   else [c]) s).

(** [run.text = new_text]: the setter of python-pptx stores
    [_escape_ctrl_chars(new_text)] as the text of the run, which is what
    [run.text] then reads. *)
Definition set_run_text {Style} (new_text : text) (run : Run Style)
    : Run Style :=
  {| run_text := _escape_ctrl_chars new_text; run_style := run_style run |}.

(** One entry of [text_position_list]; [slot_run] refers to the run by its
    position in [paragraph.runs]. *)
Record Slot := {
  slot_start : Z;
  slot_len : Z;
  slot_run : nat;
}.

Definition slot_end (pos : Slot) : Z := slot_start pos + slot_len pos.

(** The list [new_texts] with [piece] appended to its entry [idx]. *)
Definition append_piece (idx : nat) (piece : text) (new_texts : list text)
    : list text :=
  alter (fun t => t ++ piece) idx new_texts.

(** [new_texts[idx] += piece]; [IndexError] when [idx] is out of range. *)
Definition append_at (idx : nat) (piece : text) (new_texts : list text)
    : option (list text) :=
  if decide (idx < length new_texts)%nat
  then Some (append_piece idx piece new_texts)
  else None.

(** A shape of a slide: one that has a text frame, with the paragraphs of
    the frame, each a sequence of runs, or any other shape. *)
Inductive Shape (Style Other : Type) :=
  | TextShape (paragraphs : list (list (Run Style)))
  | OtherShape (content : Other).
Arguments TextShape {Style Other} _.
Arguments OtherShape {Style Other} _.

(** [shape.has_text_frame] *)
Definition has_text_frame {Style Other} (shape : Shape Style Other) : bool :=
  match shape with
  | TextShape _ => true
  | OtherShape _ => false
  end.

Module PptProcessor.

(** The first loop of [replace_paragraph_runs]; [i] is the position of the
    next run and [start_index] the length of the texts before it. *)
Fixpoint build_positions {Style} (runs : list (Run Style)) (i : nat)
    (start_index : Z) : list Slot :=
  match runs with
  | [] => []
  | run :: runs' =>
      let text := run_text run in
      {| slot_start := start_index; slot_len := py_len text; slot_run := i |}
      :: build_positions runs' (S i) (start_index + py_len text)
  end.

(** [item['run'].text], read through the reference. *)
Definition run_text_of {Style} (runs : list (Run Style)) (item : Slot)
    : text :=
  from_option run_text [] (runs !! slot_run item).

(** The [for ... break] of [_copy_non_placeholder]: the first slot that
    holds position [current], with its index. *)
Definition find_run (text_position_list : list Slot) (current : Z)
    : option (nat * Slot) :=
  list_find (fun pos => slot_start pos <= current < slot_end pos)
    text_position_list.

(** The [while] loop of [_copy_non_placeholder].  A pass of the [for] loop
    that finds no slot leaves [current] as it is, and the loop goes on. *)
Fixpoint copy_loop (fuel : nat) (new_texts : list text)
    (text_position_list : list Slot) (all_text : text) (current end_ : Z)
    : option (list text) :=
  if current <? end_ then
    match fuel with
    | O => None
    | S fuel' =>
        match find_run text_position_list current with
        | Some (idx, pos) =>
            let remaining :=
              Z.min (end_ - current) (slot_end pos - current) in
            new_texts ←
              append_at idx (py_slice all_text current (current + remaining))
                new_texts;
            copy_loop fuel' new_texts text_position_list all_text
              (current + remaining) end_
        | None =>
            copy_loop fuel' new_texts text_position_list all_text
              current end_
        end
    end
  else Some new_texts.

Definition _copy_non_placeholder (fuel : nat) (new_texts : list text)
    (text_position_list : list Slot) (all_text : text) (start end_ : Z)
    : option (list text) :=
  copy_loop fuel new_texts text_position_list all_text start end_.

(** The first loop of [_allocate_rendered_value]; the state is
    [(covered_runs, total_covered_len)]. *)
Fixpoint cover_loop (text_position_list : list Slot) (idx : nat)
    (orig_start orig_end : Z) (covered_runs : list (nat * Z))
    (total_covered_len : Z) : list (nat * Z) * Z :=
  match text_position_list with
  | [] => (covered_runs, total_covered_len)
  | pos :: rest =>
      let run_start := slot_start pos in
      let run_end := run_start + slot_len pos in
      if (orig_start <? run_end) && (run_start <? orig_end) then
        let part_start := Z.max run_start orig_start in
        let part_end := Z.min run_end orig_end in
        let part_len := part_end - part_start in
        cover_loop rest (S idx) orig_start orig_end
          (covered_runs ++ [(idx, part_len)]) (total_covered_len + part_len)
      else
        cover_loop rest (S idx) orig_start orig_end
          covered_runs total_covered_len
  end.

(** [round(ratio * rend_len)] with [ratio = part_len / total_covered_len] *)
Definition round_share (part_len total_covered_len rend_len : Z)
    : option Z :=
  ratio ← py_truediv part_len total_covered_len;
  py_round (py_float_mul_int ratio rend_len).

(** The second loop of [_allocate_rendered_value]; [n] is
    [len(covered_runs)], [i] the index of the head of [covered] in
    [covered_runs], and the state is [(new_texts, allocated)]. *)
Fixpoint allocate_loop (n : Z) (total_covered_len : Z) (rend_value : text)
    (rend_len : Z) (i : Z) (covered : list (nat * Z))
    (new_texts : list text) (allocated : Z) : option (list text) :=
  match covered with
  | [] => Some new_texts
  | (idx, part_len) :: covered' =>
      ratio ← py_truediv part_len total_covered_len;
      alloc_len ←
        (if i <? n - 1 then py_round (py_float_mul_int ratio rend_len)
         else Some (rend_len - allocated));
      new_texts ←
        append_at idx (py_slice rend_value allocated (allocated + alloc_len))
          new_texts;
      allocate_loop n total_covered_len rend_value rend_len (i + 1)
        covered' new_texts (allocated + alloc_len)
  end.

Definition _allocate_rendered_value (new_texts : list text)
    (text_position_list : list Slot) (ph : Placeholder)
    (orig_start orig_end : Z) : option (list text) :=
  let '(covered_runs, total_covered_len) :=
    cover_loop text_position_list 0 orig_start orig_end [] 0 in
  if decide (total_covered_len = 0) then Some new_texts
  else
    allocate_loop (py_len covered_runs) total_covered_len
      (rendered_value ph) (rendered_length ph) 0 covered_runs new_texts 0.

(** The loop of [replace_paragraph_runs] over [placeholder_list]; the state
    is [(new_texts, current_pos)]. *)
Fixpoint placeholder_loop (fuel : nat) (text_position_list : list Slot)
    (all_text : text) (placeholder_list : list Placeholder)
    (new_texts : list text) (current_pos : Z)
    : option (list text * Z) :=
  match placeholder_list with
  | [] => Some (new_texts, current_pos)
  | ph :: placeholder_list' =>
      let orig_start := original_start ph in
      new_texts ← _copy_non_placeholder fuel new_texts text_position_list
                    all_text current_pos orig_start;
      let current_pos := orig_start + original_length ph in
      new_texts ← _allocate_rendered_value new_texts text_position_list ph
                    orig_start current_pos;
      placeholder_loop fuel text_position_list all_text placeholder_list'
        new_texts current_pos
  end.

(** The last loop of [replace_paragraph_runs]:
    [text_position_list[i]['run'].text = new_text] for each [new_text] of
    [new_texts], [i] being its index; [IndexError] past the end of
    [text_position_list]. *)
Fixpoint commit_texts {Style} (text_position_list : list Slot) (i : nat)
    (new_texts : list text) (runs : list (Run Style))
    : option (list (Run Style)) :=
  match new_texts with
  | [] => Some runs
  | new_text :: new_texts' =>
      item ← text_position_list !! i;
      commit_texts text_position_list (S i) new_texts'
        (alter (set_run_text new_text) (slot_run item) runs)
  end.

Section Processor.
Context {Value Style : Type} (py_str : Value -> text).

(** [replace_paragraph_runs]: the runs of the paragraph after the call. *)
Definition replace_paragraph_runs (fuel : nat) (context : gmap text Value)
    (runs : list (Run Style)) : option (list (Run Style)) :=
  let text_position_list := build_positions runs 0 0 in
  let all_text :=
    concat (map (run_text_of runs) text_position_list) in
  let '(rendered_text, placeholder_list) :=
    TemplateRenderer.cal_render_position py_str context all_text in
  match placeholder_list with
  | [] => Some runs
  | _ :: _ =>
      let new_texts := replicate (length text_position_list) [] in
      '(new_texts, current_pos) ←
        placeholder_loop fuel text_position_list all_text placeholder_list
          new_texts 0;
      new_texts ← _copy_non_placeholder fuel new_texts text_position_list
                    all_text current_pos (py_len all_text);
      commit_texts text_position_list 0 new_texts runs
  end.

(** The body of the innermost loop of [process]: a paragraph without runs is
    skipped. *)
Definition process_paragraph (fuel : nat) (context : gmap text Value)
    (paragraph : list (Run Style)) : option (list (Run Style)) :=
  match paragraph with
  | [] => Some paragraph
  | _ :: _ => replace_paragraph_runs fuel context paragraph
  end.

(** The body of the loop of [process] over the shapes: a shape without a
    text frame is skipped. *)
Definition process_shape {Other : Type} (fuel : nat) (context : gmap text Value)
    (shape : Shape Style Other) : option (Shape Style Other) :=
  match shape with
  | OtherShape _ => Some shape
  | TextShape paragraphs =>
      TextShape <$> mapM (process_paragraph fuel context) paragraphs
  end.

(** The loops of [process] over the slides of the presentation, the shapes
    of each slide and the paragraphs of each text frame: the presentation
    that [process] then saves.  An exception of [replace_paragraph_runs]
    leaves [process] before the save. *)
Definition process_slides {Other : Type} (fuel : nat) (context : gmap text Value)
    (slides : list (list (Shape Style Other)))
    : option (list (list (Shape Style Other))) :=
  mapM (mapM (process_shape fuel context)) slides.
End Processor.
End PptProcessor.

(** ** Notions used to state the properties *)

(** The slots tile the text from [start] on: each begins where the one before
    it ends, and no length is negative. *)
Fixpoint contiguous (start : Z) (text_position_list : list Slot) : Prop :=
  match text_position_list with
  | [] => True
  | pos :: rest =>
      slot_start pos = start /\ 0 <= slot_len pos /\
      contiguous (slot_end pos) rest
  end.

(** Where the tiling that begins at [start] ends. *)
Fixpoint slots_end (start : Z) (text_position_list : list Slot) : Z :=
  match text_position_list with
  | [] => start
  | pos :: rest => slots_end (slot_end pos) rest
  end.

(** The part of the span [[a, b)] of [all_text] that lies in each slot. *)
Definition gap_pieces (all_text : text) (text_position_list : list Slot)
    (a b : Z) : list text :=
  map (fun pos =>
         py_slice all_text (Z.max a (slot_start pos)) (Z.min b (slot_end pos)))
    text_position_list.

(** The matches lie in [[lo, hi]], in ascending order, without overlap. *)
Fixpoint match_chain (lo hi : Z) (matches : list Match) : Prop :=
  match matches with
  | [] => lo <= hi
  | m :: matches' =>
      lo <= m_start m /\ m_start m + 5 <= m_end m /\
      match_chain (m_end m) hi matches'
  end.

(** The same for the occurrences, whose [rendered_length] is the length of
    their [rendered_value]. *)
Fixpoint placeholder_chain (lo hi : Z) (placeholder_list : list Placeholder)
    : Prop :=
  match placeholder_list with
  | [] => lo <= hi
  | ph :: placeholder_list' =>
      lo <= original_start ph /\ 0 < original_length ph /\
      rendered_length ph = py_len (rendered_value ph) /\
      placeholder_chain (original_start ph + original_length ph) hi
        placeholder_list'
  end.

(** The rendered text from source position [cur] on: the text before each
    occurrence, then its value, and the tail of the text after the last. *)
Fixpoint splice (all_text : text) (placeholder_list : list Placeholder)
    (cur : Z) : text :=
  match placeholder_list with
  | [] => py_slice_from all_text cur
  | ph :: placeholder_list' =>
      py_slice all_text cur (original_start ph) ++ rendered_value ph ++
      splice all_text placeholder_list'
        (original_start ph + original_length ph)
  end.

(** The runs that overlap the span [[orig_start, orig_end)], from index
    [idx] on, each with the length of its part of the span. *)
Fixpoint covered_of (text_position_list : list Slot) (idx : nat)
    (orig_start orig_end : Z) : list (nat * Z) :=
  match text_position_list with
  | [] => []
  | pos :: rest =>
      (if (orig_start <? slot_end pos) && (slot_start pos <? orig_end)
       then [(idx, Z.min (slot_end pos) orig_end
                   - Z.max (slot_start pos) orig_start)]
       else [])
      ++ covered_of rest (S idx) orig_start orig_end
  end.

Definition sum_Z (l : list Z) : Z := foldr Z.add 0 l.

(** [new_texts[idx] += piece] for each [(idx, piece)], in order. *)
Definition apply_pieces (new_texts : list text) (pieces : list (nat * text))
    : list text :=
  foldl (fun nt p => append_piece p.1 p.2 nt) new_texts pieces.

(** The distribution of a value over the overlapping slots, in the words of
    the specification as amended: each slot but the last takes its share from
    the front of what is left of the value, or all that is left when that is
    shorter; the last slot takes what is left. *)
Fixpoint distribute (shares : list (nat * Z)) (rest : text)
    : list (nat * text) :=
  match shares with
  | [] => []
  | (idx, k) :: shares' =>
      match shares' with
      | [] => [(idx, rest)]
      | _ :: _ =>
          (idx, take (Z.to_nat k) rest)
          :: distribute shares' (drop (Z.to_nat k) rest)
      end
  end.

(** [shares] lists, for each covered run, its index and its rounded share of
    a value of length [rend_len]. *)
Definition shares_of (covered_runs : list (nat * Z))
    (total_covered_len rend_len : Z) (shares : list (nat * Z)) : Prop :=
  Forall2 (fun c s =>
             s.1 = c.1 /\
             PptProcessor.round_share c.2 total_covered_len rend_len
             = Some s.2 /\ 0 <= s.2)
    covered_runs shares.

(** The distribution rule as the specification words it: every covered run
    but the last has received, in [received], exactly its rounded share. *)
Definition exact_shares (covered_runs : list (nat * Z))
    (total_covered_len rend_len : Z) (received : list text) : Prop :=
  forall i idx part_len,
    covered_runs !! i = Some (idx, part_len) ->
    (i < length covered_runs - 1)%nat ->
    exists t, received !! idx = Some t /\
      PptProcessor.round_share part_len total_covered_len rend_len
      = Some (py_len t).

(** The sizes for which the float arithmetic of the model is that of
    CPython: the text and every value of the context are shorter than
    [2 ^ 53] characters. *)
Definition small_enough {Value} (py_str : Value -> text)
    (context : gmap text Value) (all_text : text) : Prop :=
  py_len all_text < 2 ^ 53 /\
  forall key v, context !! key = Some v -> py_len (py_str v) < 2 ^ 53.

(** *** The placeholder syntax *)

(** [s] holds the two closing braces at offset [j]. *)
Definition closes_at (s : text) (j : nat) : Prop :=
  s !! j = Some rbrace /\ s !! S j = Some rbrace.

(** The text [s] begins with a placeholder whose group has [g] characters:
    two opening braces, a group that is not empty and holds no line feed, and
    two closing braces that are the first to begin after the first character
    of the group. *)
Definition placeholder_at (s : text) (g : nat) : Prop :=
  s !! 0%nat = Some lbrace /\ s !! 1%nat = Some lbrace /\
  (1 <= g)%nat /\
  (forall j c, (2 <= j < 2 + g)%nat -> s !! j = Some c -> c <> newline) /\
  closes_at s (2 + g) /\
  (forall j, (3 <= j < 2 + g)%nat -> ~ closes_at s j).

(** The matcher in the words of the specification: after two opening braces
    the group is arbitrary, and the first two closing braces that follow
    close the match.  The result is the length of the group. *)
Fixpoint spec_group (s : text) : option nat :=
  if closes s then Some 0%nat
  else match s with
       | [] => None
       | _ :: s' => S <$> spec_group s'
       end.

Definition spec_match_here (s : text) : option nat :=
  match s with
  | c1 :: c2 :: s' =>
      if is_char lbrace c1 && is_char lbrace c2 then spec_group s' else None
  | _ => None
  end.

Fixpoint spec_finditer_from (s : text) (pos : Z) (skip : nat) : list Match :=
  match s with
  | [] => []
  | _ :: s' =>
      match skip with
      | S k => spec_finditer_from s' (pos + 1) k
      | O =>
          match spec_match_here s with
          | Some g =>
              {| m_start := pos;
                 m_end := pos + Z.of_nat g + 4;
                 m_group1 := take g (drop 2 s) |}
              :: spec_finditer_from s' (pos + 1) (g + 3)
          | None => spec_finditer_from s' (pos + 1) 0
          end
      end
  end.

Definition spec_finditer (all_text : text) : list Match :=
  spec_finditer_from all_text 0 0.


(** The occurrence that the resolver records for a match. *)
Definition occurrence_of {Value} (py_str : Value -> text)
    (context : gmap text Value) (m : Match) (ph : Placeholder) : Prop :=
  original_start ph = m_start m /\
  original_length ph = m_end m - m_start m /\
  placeholder ph = strip (m_group1 m) /\
  rendered_value ph
  = TemplateRenderer.context_get py_str context (placeholder ph) /\
  rendered_length ph = py_len (rendered_value ph).

(** The hypotheses on one call of [_allocate_rendered_value]: the slots tile
    a text shorter than [2 ^ 53], the span lies in it and is not empty, and
    the occurrence records the length of its value. *)
Definition allocation_ready (tpl : list Slot) (ph : Placeholder)
    (os oe : Z) : Prop :=
  contiguous 0 tpl /\ 0 <= os < oe /\ oe <= slots_end 0 tpl /\
  slots_end 0 tpl < 2 ^ 53 /\
  rendered_length ph = py_len (rendered_value ph) /\
  py_len (rendered_value ph) < 2 ^ 53.

(** The state of the reflow when the source text is consumed up to position
    [c]: a text of [new_texts] is still empty if its run begins at [c] or
    later, or if its run is empty. *)
Definition reflow_inv (tpl : list Slot) (c : Z) (nt : list text) : Prop :=
  length nt = length tpl /\
  forall j pos t, tpl !! j = Some pos -> nt !! j = Some t -> t <> [] ->
    slot_start pos < c /\ slot_len pos <> 0.

(** The matches of a scan of [all_text] from position [lo] on: each match is
    a placeholder, no placeholder begins between the end of the match before
    it and its start, and none begins after the last match. *)
Fixpoint scanned (all_text : text) (lo : nat) (matches : list Match) : Prop :=
  match matches with
  | [] => forall i g, (lo <= i)%nat -> ~ placeholder_at (drop i all_text) g
  | m :: matches' =>
      exists i g,
        m_start m = Z.of_nat i /\ (lo <= i)%nat /\
        placeholder_at (drop i all_text) g /\
        m_end m = Z.of_nat (i + g + 4) /\
        m_group1 m = take g (drop (i + 2) all_text) /\
        (forall i' g', (lo <= i' < i)%nat ->
           ~ placeholder_at (drop i' all_text) g') /\
        scanned all_text (i + g + 4) matches'
  end.

(** [key] is [content] without the whitespace at its two ends. *)
Definition trimmed (content key : text) : Prop :=
  (exists pre post, content = pre ++ key ++ post /\
     Forall (fun c => isspace c = true) pre /\
     Forall (fun c => isspace c = true) post) /\
  (forall c, head key = Some c -> isspace c = false) /\
  (forall c, last key = Some c -> isspace c = false).

(** *** The texts of a paragraph after the reflow *)

(** The list [new_texts] of [replace_paragraph_runs] when its last loop
    begins: the texts accumulated, one for each slot, by the loop over the
    occurrences and by the copy of the text after the last occurrence. *)
Definition accumulated_texts (fuel : nat) (text_position_list : list Slot)
    (all_text : text) (placeholder_list : list Placeholder)
    : option (list text) :=
  '(new_texts, current_pos) ←
    PptProcessor.placeholder_loop fuel text_position_list all_text
      placeholder_list (replicate (length text_position_list) []) 0;
  PptProcessor._copy_non_placeholder fuel new_texts text_position_list
    all_text current_pos (py_len all_text).

(** The text that a paragraph with the joined texts [all_text] holds after
    the reflow: the rendered text as it is when the resolver lists no
    occurrence, since no run is assigned then, and the rendered text as the
    setter stores it otherwise. *)
Definition reflowed_text {Value} (py_str : Value -> text)
    (context : gmap text Value) (all_text : text) : text :=
  let '(rendered_text, placeholder_list) :=
    TemplateRenderer.cal_render_position py_str context all_text in
  match placeholder_list with
  | [] => rendered_text
  | _ :: _ => _escape_ctrl_chars rendered_text
  end.

(** The text [s] holds no character that the setter escapes. *)
Definition ctrl_free (s : text) : Prop :=
  Forall (fun c => is_ctrl_char c = false) s.

(** *** Examples *)

(** The paragraph of the specification's example. *)
Definition sales_runs {Style} (s0 s1 : Style) : list (Run Style) :=
  [ {| run_text := txt "Sales: {{sa"; run_style := s0 |};
    {| run_text := txt "les}} unit"; run_style := s1 |} ].

Definition sales_context : gmap text text :=
  {[ txt "sales" := txt "980.0" ]}.

(** A placeholder of five characters, one in each run, and a value of three
    characters. *)
Definition braces_runs : list (Run unit) :=
  map (fun s => {| run_text := txt s; run_style := tt |})
    ["{"; "{"; "a"; "}"; "}"]%string.

Definition braces_context : gmap text text := {[ txt "a" := txt "xyz" ]}.

Definition braces_occurrence : Placeholder :=
  {| original_start := 0; original_length := 5;
     rendered_start := 0; rendered_length := 3;
     placeholder := txt "a"; rendered_value := txt "xyz" |}.

(** A placeholder with two empty runs inside its span. *)
Definition gapped_runs : list (Run unit) :=
  map (fun s => {| run_text := txt s; run_style := tt |})
    ["x{"; "{"; ""; "a"; "}"; ""; "}y"]%string.

(** A placeholder in the middle run of three. *)
Definition framed_runs : list (Run unit) :=
  map (fun s => {| run_text := txt s; run_style := tt |})
    ["Total "; "{{a}}"; " end"]%string.




(** A presentation of two slides: text frames with and without
    placeholders, a paragraph without runs, and a shape without a text
    frame. *)
Definition sample_slides : list (list (Shape unit nat)) :=
  [ [ TextShape [ sales_runs tt tt; [] ]; OtherShape 7%nat ];
    [ TextShape [ framed_runs ] ] ].

(** A presentation without placeholders. *)
Definition plain_slides : list (list (Shape unit nat)) :=
  [ [ TextShape [ [ {| run_text := txt "Quarterly {report}";
                       run_style := tt |} ]; [] ];
      OtherShape 3%nat ] ].

(** Slots that leave the span [[6, 11)] of an occurrence uncovered. *)
Definition stray_positions : list Slot :=
  [ {| slot_start := 4; slot_len := 2; slot_run := 0 |};
    {| slot_start := 20; slot_len := 2; slot_run := 1 |} ].


(** The occurrence of [{{unknown}}] in an empty context. *)
Definition unknown_occurrence : Placeholder :=
  {| original_start := 0; original_length := 11;
     rendered_start := 0; rendered_length := 0;
     placeholder := txt "unknown"; rendered_value := [] |}.

(** *** Presentations *)

(** Two shapes of the same kind: the same content for shapes without a text
    frame, paragraphs related one by one by [R] for the others. *)
Definition shape_rel {Style Other}
    (R : list (Run Style) -> list (Run Style) -> Prop)
    (shape shape' : Shape Style Other) : Prop :=
  match shape, shape' with
  | TextShape paragraphs, TextShape paragraphs' =>
      Forall2 R paragraphs paragraphs'
  | OtherShape content, OtherShape content' => content = content'
  | _, _ => False
  end.

(** Every paragraph of the shape satisfies [P]. *)
Definition shape_all {Style Other} (P : list (Run Style) -> Prop)
    (shape : Shape Style Other) : Prop :=
  match shape with
  | TextShape paragraphs => Forall P paragraphs
  | OtherShape _ => True
  end.

(** The part of [all_text] in the slot [pos] that lies before position
    [c]. *)
Definition slot_content (all_text : text) (pos : Slot) (c : Z) : text :=
  py_slice all_text (slot_start pos)
    (Z.min (Z.max c (slot_start pos)) (slot_end pos)).

(** The slot [pos] holds no character of the span of [ph]. *)
Definition outside_span (pos : Slot) (ph : Placeholder) : Prop :=
  slot_end pos <= original_start ph \/
  original_start ph + original_length ph <= slot_start pos.

Arguments match_here : simpl never.

(** * Properties *)

(** ** Binary64 arithmetic: the rounded share is a natural number

    Coarse bounds on mantissas and exponents: an int below [2 ^ 53] converts
    exactly, and neither the quotient nor the product comes near the overflow
    threshold, so [round] is applied to a finite float that is not negative. *)

Lemma digits2_pos_bounds p :
  2 ^ (Zpos (digits2_pos p) - 1) <= Zpos p < 2 ^ Zpos (digits2_pos p).
Proof.
  induction p as [p IH|p IH|]; simpl digits2_pos.
  - rewrite Pos2Z.inj_succ, Z.pow_succ_r by lia.
    replace (Z.succ (Z.pos (digits2_pos p)) - 1) with (Z.succ (Z.pos (digits2_pos p) - 1)) by lia.
    rewrite Z.pow_succ_r by lia. lia.
  - rewrite Pos2Z.inj_succ, Z.pow_succ_r by lia.
    replace (Z.succ (Z.pos (digits2_pos p)) - 1) with (Z.succ (Z.pos (digits2_pos p) - 1)) by lia.
    rewrite Z.pow_succ_r by lia. lia.
  - simpl. lia.
Qed.

Lemma Zdigits2_le m d : 0 <= m < 2 ^ d -> 0 <= d -> 0 <= Zdigits2 m <= d.
Proof.
  intros [Hm Hlt] Hd. destruct m as [|p|p]; simpl; [lia| |lia].
  split; [lia|]. destruct (Z_lt_le_dec d (Zpos (digits2_pos p))) as [Hc|]; [|lia].
  pose proof (digits2_pos_bounds p) as [Hlo _].
  assert (2 ^ d <= 2 ^ (Z.pos (digits2_pos p) - 1)) by (apply Z.pow_le_mono_r; lia).
  lia.
Qed.

Lemma iter_shr_1_bounds n r :
  0 <= shr_m r -> 0 <= shr_m (SpecFloat.iter_pos shr_1 n r) <= shr_m r.
Proof.
  assert (H1 : forall r, 0 <= shr_m r -> 0 <= shr_m (shr_1 r) <= shr_m r).
  { intros [m b s] Hm; simpl in *. destruct m as [|[p|p|]|p]; simpl; lia. }
  revert r. induction n as [n IH|n IH|]; intros r Hr; simpl.
  - specialize (H1 r Hr). pose proof (IH _ (proj1 H1)) as H2.
    pose proof (IH _ (proj1 H2)) as H3. lia.
  - pose proof (IH _ Hr) as H2. pose proof (IH _ (proj1 H2)) as H3. lia.
  - auto.
Qed.

Lemma shr_bounds r e n :
  0 <= shr_m r ->
  0 <= shr_m (shr r e n).1 <= shr_m r /\ (shr r e n).2 = e + Z.max 0 n.
Proof.
  intros Hr. destruct n as [|p|p]; simpl; try (split; lia).
  split; [by apply iter_shr_1_bounds | lia].
Qed.

Lemma shr_m_of_loc m l : shr_m (shr_record_of_loc m l) = m.
Proof. by destruct l as [|[]]. Qed.

Lemma shr_fexp_bounds m e l d :
  0 <= m < 2 ^ d -> 0 <= d -> -1074 <= e ->
  0 <= shr_m (shr_fexp 53 1024 m e l).1 <= m /\
  e <= (shr_fexp 53 1024 m e l).2 <= e + d.
Proof.
  intros Hm Hd He. unfold shr_fexp.
  pose proof (shr_bounds (shr_record_of_loc m l) e
    (fexp 53 1024 (Zdigits2 m + e) - e)) as [H1 H2].
  { rewrite shr_m_of_loc. lia. }
  rewrite shr_m_of_loc in H1. split; [done|]. rewrite H2.
  pose proof (Zdigits2_le m d Hm Hd). unfold fexp, emin. lia.
Qed.

Lemma round_nearest_even_bounds m l :
  m <= round_nearest_even m l <= m + 1.
Proof. destruct l as [|[]]; simpl; try lia. destruct (Z.even m); lia. Qed.

Lemma binary_round_aux_crude s m e l d :
  0 <= m < 2 ^ d -> 0 <= d <= 250 -> -400 <= e <= 400 ->
  binary_round_aux 53 1024 s m e l = S754_zero s \/
  exists m' e', binary_round_aux 53 1024 s m e l = S754_finite s m' e' /\
    Zpos m' <= m + 1 /\ e <= e' <= e + 2 * d + 1.
Proof.
  intros Hm Hd He. unfold binary_round_aux.
  pose proof (shr_fexp_bounds m e l d Hm ltac:(lia) ltac:(lia)) as [Hm1 He1].
  destruct (shr_fexp 53 1024 m e l) as [r1 e1]; simpl in Hm1, He1.
  pose proof (round_nearest_even_bounds (shr_m r1) (loc_of_shr_record r1)) as Hrne.
  set (m1 := round_nearest_even (shr_m r1) (loc_of_shr_record r1)) in *.
  assert (Hm1' : 0 <= m1 < 2 ^ (d + 1)).
  { rewrite Z.pow_add_r by lia. lia. }
  pose proof (shr_fexp_bounds m1 e1 loc_Exact (d + 1) Hm1' ltac:(lia) ltac:(lia)) as [Hm2 He2].
  destruct (shr_fexp 53 1024 m1 e1 loc_Exact) as [r2 e2]; simpl in Hm2, He2.
  destruct (shr_m r2) as [|p|p] eqn:Hr2; [by left| |lia].
  right. exists p, e2. rewrite (proj2 (Z.leb_le _ _)) by lia.
  split; [done|]. lia.
Qed.

Lemma digits2_pos_iter_xO p k :
  Zpos (digits2_pos (Pos.iter xO p k)) = Zpos (digits2_pos p) + Zpos k.
Proof.
  induction k as [|k IH] using Pos.peano_ind.
  - simpl. lia.
  - rewrite Pos.iter_succ. simpl digits2_pos. lia.
Qed.

Lemma iter_xO_lt p k d :
  Zpos p < 2 ^ d -> 0 <= d -> Zpos (Pos.iter xO p k) < 2 ^ (d + Zpos k).
Proof.
  intros Hp Hd. induction k as [|k IH] using Pos.peano_ind.
  - simpl Pos.iter. rewrite Z.pow_add_r by lia. lia.
  - rewrite Pos.iter_succ, Pos2Z.inj_succ.
    replace (d + Z.succ (Z.pos k)) with (Z.succ (d + Z.pos k)) by lia.
    rewrite Z.pow_succ_r by lia. lia.
Qed.

Lemma binary_round_aux_canonical s m e :
  Zpos (digits2_pos m) = 53 -> -1074 <= e <= 971 ->
  binary_round_aux 53 1024 s (Zpos m) e loc_Exact = S754_finite s m e.
Proof.
  intros Hd He. unfold binary_round_aux, shr_fexp. simpl Zdigits2. rewrite Hd.
  replace (fexp 53 1024 (53 + e) - e) with 0 by (unfold fexp, emin; lia).
  simpl. rewrite Hd.
  replace (fexp 53 1024 (53 + e) - e) with 0 by (unfold fexp, emin; lia).
  simpl. by rewrite (proj2 (Z.leb_le _ _)) by lia.
Qed.

Lemma py_int_to_float_pos n :
  0 < n < 2 ^ 53 ->
  exists m e, py_int_to_float n = S754_finite false m e /\
    Zpos m < 2 ^ 53 /\ -52 <= e <= 0.
Proof.
  intros [Hn Hlt]. destruct n as [|p|p]; try lia.
  unfold py_int_to_float, binary_normalize, binary_round.
  pose proof (digits2_pos_bounds p) as [Hlo Hhi].
  assert (Hd : 1 <= Zpos (digits2_pos p) <= 53).
  { pose proof (Zdigits2_le (Zpos p) 53 ltac:(lia) ltac:(lia)). simpl in *. lia. }
  rewrite Z.add_0_r. unfold shl_align.
  replace (fexp 53 1024 (Zpos (digits2_pos p))) with (Zpos (digits2_pos p) - 53)
    by (unfold fexp, emin; lia).
  rewrite Z.sub_0_r.
  destruct (Zpos (digits2_pos p) - 53) as [|k|k] eqn:Hk; try lia.
  - exists p, 0. rewrite binary_round_aux_canonical by lia. repeat split; lia.
  - exists (Pos.iter xO p k), (Z.neg k).
    rewrite binary_round_aux_canonical.
    + split; [done|]. split; [|lia].
      pose proof (iter_xO_lt p k _ Hhi ltac:(lia)) as H.
      replace (Zpos (digits2_pos p) + Zpos k) with 53 in H by lia. done.
    + rewrite digits2_pos_iter_xO. lia.
    + lia.
Qed.

Lemma py_int_to_float_nonneg n :
  0 <= n < 2 ^ 53 ->
  py_int_to_float n = S754_zero false \/
  exists m e, py_int_to_float n = S754_finite false m e /\
    Zpos m < 2 ^ 53 /\ -52 <= e <= 0.
Proof.
  intros [Hn Hlt]. destruct (decide (n = 0)) as [->|]; [by left|].
  right. apply py_int_to_float_pos. lia.
Qed.

Lemma SFdiv_finite_crude mx ex my ey :
  Zpos mx < 2 ^ 53 -> -52 <= ex <= 0 -> Zpos my < 2 ^ 53 -> -52 <= ey <= 0 ->
  let r := SFdiv 53 1024 (S754_finite false mx ex) (S754_finite false my ey) in
  r = S754_zero false \/
  exists m e, r = S754_finite false m e /\ Zpos m < 2 ^ 159 /\ -157 <= e <= 369.
Proof.
  intros Hmx Hex Hmy Hey. cbv zeta. unfold SFdiv, SFdiv_core_binary.
  set (e' := Z.min _ _).
  assert (He' : ex - ey - 105 <= e' <= ex - ey).
  { subst e'. pose proof (Zdigits2_le (Zpos mx) 53 ltac:(lia) ltac:(lia)).
    pose proof (Zdigits2_le (Zpos my) 53 ltac:(lia) ltac:(lia)).
    simpl Zdigits2 in *. unfold fexp, emin. lia. }
  set (m' := match ex - ey - e' with Z0 => _ | Zpos _ => _ | Zneg _ => _ end).
  assert (Hm' : 0 <= m' < 2 ^ 158).
  { subst m'. destruct (ex - ey - e') as [|s|s] eqn:Hs.
    - split; [lia|]. transitivity (2 ^ 53); [done|]. by apply Z.pow_lt_mono_r.
    - rewrite Z.shiftl_mul_pow2 by lia. split; [lia|].
      assert (2 ^ Zpos s <= 2 ^ 105) by (apply Z.pow_le_mono_r; lia).
      replace (2 ^ 158) with (2 ^ 53 * 2 ^ 105) by (rewrite <- Z.pow_add_r; [done|lia|lia]).
      nia.
    - split; [lia|]. by apply Z.pow_pos_nonneg. }
  pose proof (Z_div_mod m' (Zpos my) ltac:(lia)) as Hdm.
  destruct (Z.div_eucl m' (Zpos my)) as [q r] eqn:Hqr. simpl xorb.
  destruct Hdm as [Hq Hr].
  assert (Hqb : 0 <= q <= m') by nia.
  destruct (binary_round_aux_crude false q e' (new_location (Zpos my) r) 158)
    as [Hz|(m & e & Heq & Hm & He)]; try lia.
  - by left.
  - right. exists m, e. split; [done|]. split; [|lia].
    replace (2 ^ 159) with (2 * 2 ^ 158) by (by rewrite <- Z.pow_succ_r). lia.
Qed.

Lemma SFmul_finite_crude mx ex my ey :
  Zpos mx < 2 ^ 159 -> -157 <= ex <= 369 -> Zpos my < 2 ^ 53 -> -52 <= ey <= 0 ->
  let r := SFmul 53 1024 (S754_finite false mx ex) (S754_finite false my ey) in
  r = S754_zero false \/ exists m e, r = S754_finite false m e.
Proof.
  intros Hmx Hex Hmy Hey. cbv zeta. unfold SFmul. simpl xorb.
  destruct (binary_round_aux_crude false (Zpos (mx * my)) (ex + ey) loc_Exact 212)
    as [Hz|(m & e & Heq & _)]; try lia.
  - split; [lia|]. rewrite Pos2Z.inj_mul.
    replace (2 ^ 212) with (2 ^ 159 * 2 ^ 53) by (rewrite <- Z.pow_add_r; [done|lia|lia]).
    nia.
  - by left.
  - right. eauto.
Qed.

Lemma round_half_even_nonneg m k : 0 <= m -> 0 <= round_half_even m k.
Proof.
  intros Hm. unfold round_half_even.
  assert (0 <= Z.shiftr m k) by (by apply Z.shiftr_nonneg).
  destruct (_ ?= _); [destruct (Z.even _)| |]; lia.
Qed.

Lemma py_round_nonneg x :
  (x = S754_zero false \/ exists m e, x = S754_finite false m e) ->
  exists k, py_round x = Some k /\ 0 <= k.
Proof.
  intros [->|(m & e & ->)]; simpl; [exists 0; split; [done|lia]|].
  eexists; split; [done|]. destruct (0 <=? e).
  - apply Z.shiftl_nonneg. lia.
  - apply round_half_even_nonneg. lia.
Qed.

Lemma round_share_nonneg p t L :
  0 <= p < 2 ^ 53 -> 0 < t < 2 ^ 53 -> 0 <= L < 2 ^ 53 ->
  exists k, PptProcessor.round_share p t L = Some k /\ 0 <= k.
Proof.
  intros Hp Ht HL. unfold PptProcessor.round_share, py_truediv.
  destruct (decide (t = 0)) as [|_]; [lia|]. simpl.
  apply py_round_nonneg. unfold py_float_mul_int.
  destruct (py_int_to_float_pos t Ht) as (mt & et & -> & Hmt & Het).
  assert (Hratio : let r := SFdiv 53 1024 (py_int_to_float p) (S754_finite false mt et) in
    r = S754_zero false \/
    exists m e, r = S754_finite false m e /\ Zpos m < 2 ^ 159 /\ -157 <= e <= 369).
  { destruct (py_int_to_float_nonneg p Hp) as [->|(mp & ep & -> & Hmp & Hep)].
    - by left.
    - by apply SFdiv_finite_crude. }
  cbv zeta in Hratio.
  destruct Hratio as [->|(mr & er & -> & Hmr & Her)];
    destruct (py_int_to_float_nonneg L HL) as [->|(ml & el & -> & Hml & Hel)];
    try (by left).
  by apply SFmul_finite_crude.
Qed.

Lemma round_share_zero t L :
  0 < t < 2 ^ 53 -> 0 <= L < 2 ^ 53 -> PptProcessor.round_share 0 t L = Some 0.
Proof.
  intros Ht HL. unfold PptProcessor.round_share, py_truediv.
  destruct (decide (t = 0)) as [|_]; [lia|]. simpl. unfold py_float_mul_int.
  destruct (py_int_to_float_pos t Ht) as (mt & et & -> & _).
  change (py_int_to_float 0) with (S754_zero false). simpl.
  by destruct (py_int_to_float_nonneg L HL) as [->|(ml & el & -> & _)].
Qed.

(** ** Slices *)

Lemma py_len_nonneg {A} (s : list A) : 0 <= py_len s.
Proof. unfold py_len. lia. Qed.

Lemma py_len_app {A} (s t : list A) : py_len (s ++ t) = py_len s + py_len t.
Proof. unfold py_len. rewrite length_app. lia. Qed.

Lemma py_slice_nonneg {A} (s : list A) lo hi :
  0 <= lo -> 0 <= hi ->
  py_slice s lo hi = take (Z.to_nat (hi - lo)) (drop (Z.to_nat lo) s).
Proof.
  intros Hlo Hhi. unfold py_slice, slice_index.
  rewrite !(proj2 (Z.ltb_ge _ _)) by lia.
  unfold py_len.
  destruct (decide (lo <= Z.of_nat (length s))) as [Hle|Hgt].
  - rewrite (Z.min_l lo) by lia.
    destruct (decide (hi <= Z.of_nat (length s))).
    + by rewrite Z.min_l by lia.
    + rewrite Z.min_r by lia. rewrite !take_ge; [done|..];
        rewrite length_drop; lia.
  - rewrite !drop_ge by lia. by rewrite !take_nil.
Qed.

Lemma py_slice_empty {A} (s : list A) lo hi :
  0 <= hi -> hi <= lo -> py_slice s lo hi = [].
Proof.
  intros Hhi Hle. rewrite py_slice_nonneg by lia.
  replace (Z.to_nat (hi - lo)) with 0%nat by lia. done.
Qed.

Lemma py_slice_join {A} (s : list A) lo mid hi :
  0 <= lo <= mid -> mid <= hi ->
  py_slice s lo mid ++ py_slice s mid hi = py_slice s lo hi.
Proof.
  intros Hlo Hhi. rewrite !py_slice_nonneg by lia.
  replace (Z.to_nat (hi - lo))
    with (Z.to_nat (mid - lo) + Z.to_nat (hi - mid))%nat by lia.
  replace (Z.to_nat mid) with (Z.to_nat lo + Z.to_nat (mid - lo))%nat by lia.
  rewrite <- drop_drop. by rewrite take_take_drop.
Qed.

Lemma py_slice_from_nonneg {A} (s : list A) lo :
  0 <= lo -> py_slice_from s lo = drop (Z.to_nat lo) s.
Proof.
  intros Hlo. unfold py_slice_from, slice_index.
  rewrite (proj2 (Z.ltb_ge _ _)) by lia. unfold py_len.
  destruct (decide (lo <= Z.of_nat (length s))).
  - by rewrite Z.min_l by lia.
  - by rewrite !drop_ge by lia.
Qed.

Lemma py_slice_to_end {A} (s : list A) lo hi :
  0 <= lo -> py_len s <= hi -> py_slice s lo hi = py_slice_from s lo.
Proof.
  intros Hlo Hhi. pose proof (py_len_nonneg s).
  rewrite py_slice_nonneg, py_slice_from_nonneg by lia.
  apply take_ge. rewrite length_drop. unfold py_len in *. lia.
Qed.

Lemma py_slice_take_drop {A} (s : list A) a k :
  0 <= a -> 0 <= k ->
  py_slice s a (a + k) = take (Z.to_nat k) (drop (Z.to_nat a) s).
Proof.
  intros Ha Hk. rewrite py_slice_nonneg by lia. do 2 f_equal. lia.
Qed.

(** The slice that the last covered run receives: from [a] to the length of
    the value, also when [a] lies beyond it. *)
Lemma py_slice_rest {A} (s : list A) a :
  0 <= a -> py_slice s a (a + (py_len s - a)) = drop (Z.to_nat a) s.
Proof.
  intros Ha. replace (a + (py_len s - a)) with (py_len s) by lia.
  rewrite py_slice_to_end by lia. by apply py_slice_from_nonneg.
Qed.

Lemma py_slice_all {A} (s : list A) : py_slice_from s 0 = s.
Proof. by rewrite py_slice_from_nonneg. Qed.

(** ** Lists of texts updated by index *)

Lemma append_piece_length idx piece (nt : list text) :
  length (append_piece idx piece nt) = length nt.
Proof. apply length_alter. Qed.

Lemma append_at_Some idx piece (nt : list text) :
  (idx < length nt)%nat ->
  append_at idx piece nt = Some (append_piece idx piece nt).
Proof. intros Hlt. unfold append_at. by destruct (decide _). Qed.

Lemma append_piece_zip idx piece (nt P : list text) :
  append_piece idx piece (zip_with app nt P)
  = zip_with app nt (append_piece idx piece P).
Proof.
  unfold append_piece. revert idx P. induction nt as [|t nt IH]; intros idx P.
  - done.
  - destruct P as [|p P]; [done|]. destruct idx as [|idx]; simpl.
    + by rewrite app_assoc.
    + f_equal. apply IH.
Qed.

Lemma zip_with_app_nil (nt P : list text) :
  length P = length nt -> Forall (fun p => p = []) P ->
  zip_with app nt P = nt.
Proof.
  revert P. induction nt as [|t nt IH]; intros [|p P] Hlen HP;
    simplify_eq/=; [done|].
  inversion HP; subst. rewrite app_nil_r. f_equal. by apply IH.
Qed.

(** Appending the pieces to [nt] is appending to [nt] what the pieces make
    from empty texts. *)
Lemma apply_pieces_zip (nt Q : list text) pieces :
  length Q = length nt ->
  apply_pieces (zip_with app nt Q) pieces
  = zip_with app nt (apply_pieces Q pieces).
Proof.
  unfold apply_pieces. revert Q.
  induction pieces as [|[idx piece] pieces IH]; intros Q HQ; simpl; [done|].
  rewrite append_piece_zip. apply IH. by rewrite append_piece_length.
Qed.

Lemma apply_pieces_length nt pieces :
  length (apply_pieces nt pieces) = length nt.
Proof.
  unfold apply_pieces. revert nt.
  induction pieces as [|[idx piece] pieces IH]; intros nt; simpl; [done|].
  by rewrite IH, append_piece_length.
Qed.

Lemma apply_pieces_portions (nt : list text) pieces :
  apply_pieces nt pieces
  = zip_with app nt (apply_pieces (replicate (length nt) []) pieces).
Proof.
  rewrite <- apply_pieces_zip by apply length_replicate.
  f_equal. symmetry. apply zip_with_app_nil.
  - apply length_replicate.
  - apply Forall_replicate. done.
Qed.

(** Two lists of texts of which no entry of the second comes before a
    non-empty entry of the first: zipping them keeps the order of the
    characters. *)
Lemma concat_zip_with_app (nt P : list text) :
  length P = length nt ->
  (forall i j p t, (i < j)%nat -> P !! i = Some p -> nt !! j = Some t ->
     p = [] \/ t = []) ->
  concat (zip_with app nt P) = concat nt ++ concat P.
Proof.
  revert P. induction nt as [|t nt IH]; intros [|p P] Hlen Hsep;
    simplify_eq/=; [done|].
  rewrite IH; [|done|]; last first.
  { intros i j p' t' Hij Hp Ht. apply (Hsep (S i) (S j)); [lia|done..]. }
  destruct (decide (p = [])) as [->|Hp].
  { simpl. by rewrite <- !app_assoc. }
  assert (Hnt : concat nt = []).
  { apply concat_nil_Forall, Forall_lookup_2. intros j t' Ht'.
    destruct (Hsep 0%nat (S j) p t') as [|]; [lia|done|done|done|done]. }
  rewrite Hnt. simpl. by rewrite <- !app_assoc.
Qed.

Lemma zip_append_piece (nt G G' : list text) idx piece :
  (forall j g', j <> idx -> G' !! j = Some g' -> G !! j = Some g') ->
  (forall g', G' !! idx = Some g' -> G !! idx = Some (piece ++ g')) ->
  length G = length G' ->
  zip_with app (append_piece idx piece nt) G' = zip_with app nt G.
Proof.
  intros Hne Heq Hlen. apply list_eq. intros j. unfold append_piece.
  rewrite !lookup_zip_with. destruct (decide (j = idx)) as [->|Hj].
  - rewrite list_lookup_alter_eq. destruct (nt !! idx) as [t|]; simpl; [|done].
    destruct (G' !! idx) as [g'|] eqn:Hg'; simpl.
    + rewrite (Heq g' eq_refl). simpl. by rewrite app_assoc.
    + apply lookup_ge_None in Hg'. rewrite (proj2 (lookup_ge_None G idx)); [done|lia].
  - rewrite list_lookup_alter_ne by done.
    destruct (nt !! j) as [t|]; simpl; [|done].
    destruct (G' !! j) as [g'|] eqn:Hg'; simpl.
    + by rewrite (Hne j g' Hj Hg').
    + apply lookup_ge_None in Hg'. rewrite (proj2 (lookup_ge_None G j)); [done|lia].
Qed.

(** ** The layout of the slots *)

Lemma slots_end_ge start tpl : contiguous start tpl -> start <= slots_end start tpl.
Proof.
  revert start. induction tpl as [|pos tpl IH]; intros start Hc; simpl; [lia|].
  destruct Hc as (Hs & Hl & Hc). specialize (IH _ Hc). unfold slot_end in *. lia.
Qed.

Lemma contiguous_lookup start tpl j pos :
  contiguous start tpl -> tpl !! j = Some pos ->
  start <= slot_start pos /\ 0 <= slot_len pos /\
  slot_end pos <= slots_end start tpl.
Proof.
  revert start j. induction tpl as [|p tpl IH]; intros start j Hc Hj; [done|].
  destruct Hc as (Hs & Hl & Hc). destruct j as [|j]; simplify_eq/=.
  - pose proof (slots_end_ge _ _ Hc). unfold slot_end in *. lia.
  - destruct (IH _ _ Hc Hj) as (H1 & H2 & H3). unfold slot_end in *. lia.
Qed.

Lemma contiguous_mono start tpl i j p q :
  contiguous start tpl -> (i < j)%nat ->
  tpl !! i = Some p -> tpl !! j = Some q -> slot_end p <= slot_start q.
Proof.
  revert start i j. induction tpl as [|r tpl IH]; intros start i j Hc Hij Hi Hj;
    [done|].
  destruct Hc as (Hs & Hl & Hc). destruct j as [|j]; [lia|].
  destruct i as [|i]; simplify_eq/=.
  - by destruct (contiguous_lookup _ _ _ _ Hc Hj) as (H1 & _).
  - apply (IH _ i j Hc); [lia|done..].
Qed.

Lemma contiguous_covering start tpl c :
  contiguous start tpl -> start <= c < slots_end start tpl ->
  exists j pos, tpl !! j = Some pos /\ slot_start pos <= c < slot_end pos.
Proof.
  revert start. induction tpl as [|p tpl IH]; intros start Hc Hr; simpl in *;
    [lia|].
  destruct Hc as (Hs & Hl & Hc).
  destruct (decide (c < slot_end p)) as [Hlt|Hge].
  - exists 0%nat, p. split; [done|lia].
  - destruct (IH _ Hc ltac:(lia)) as (j & pos & Hj & Hpos).
    by exists (S j), pos.
Qed.

Lemma find_run_covering start tpl c :
  contiguous start tpl -> start <= c < slots_end start tpl ->
  exists idx pos, PptProcessor.find_run tpl c = Some (idx, pos) /\
    tpl !! idx = Some pos /\ slot_start pos <= c < slot_end pos.
Proof.
  intros Hc Hr. destruct (contiguous_covering _ _ _ Hc Hr) as (j & q & Hj & Hq).
  unfold PptProcessor.find_run.
  destruct (list_find (fun pos => slot_start pos <= c < slot_end pos) tpl)
    as [[idx pos]|] eqn:Hfind.
  - apply list_find_Some in Hfind as (Hidx & Hpos & _). by exists idx, pos.
  - apply list_find_None in Hfind.
    rewrite Forall_lookup in Hfind. by destruct (Hfind j q Hj).
Qed.

(** ** Copying a span that holds no placeholder *)

Lemma gap_pieces_length all_text tpl a b :
  length (gap_pieces all_text tpl a b) = length tpl.
Proof. apply length_map. Qed.

Lemma gap_pieces_lookup all_text tpl a b j :
  gap_pieces all_text tpl a b !! j
  = (fun pos => py_slice all_text (Z.max a (slot_start pos))
                  (Z.min b (slot_end pos))) <$> tpl !! j.
Proof. apply list_lookup_fmap. Qed.

Lemma concat_gap_pieces all_text start tpl a b :
  contiguous start tpl -> 0 <= start -> 0 <= a -> 0 <= b ->
  concat (gap_pieces all_text tpl a b)
  = py_slice all_text (Z.max a start) (Z.min b (slots_end start tpl)).
Proof.
  revert start. induction tpl as [|p tpl IH]; intros start Hc Hs Ha Hb; simpl.
  - symmetry. apply py_slice_empty; lia.
  - destruct Hc as (Hps & Hl & Hc). fold (gap_pieces all_text tpl a b).
    rewrite (IH _ Hc) by (unfold slot_end; lia).
    pose proof (slots_end_ge _ _ Hc) as Hend. rewrite Hps.
    assert (start <= slot_end p) by (unfold slot_end; lia).
    destruct (decide (b <= slot_end p)).
    { rewrite (py_slice_empty _ (Z.max a (slot_end p))) by lia.
      rewrite app_nil_r. f_equal; lia. }
    destruct (decide (slot_end p <= a)).
    { rewrite (py_slice_empty _ (Z.max a start)) by lia. simpl. f_equal; lia. }
    replace (Z.min b (slot_end p)) with (slot_end p) by lia.
    replace (Z.max a (slot_end p)) with (slot_end p) by lia.
    apply py_slice_join; lia.
Qed.

Lemma py_slice_nonempty {A} (s : list A) lo hi :
  0 <= hi -> py_slice s lo hi <> [] -> lo < hi.
Proof.
  intros Hhi Hne. destruct (decide (lo < hi)); [done|].
  destruct Hne. apply py_slice_empty; lia.
Qed.

Lemma gap_pieces_support all_text start tpl a b j pos t :
  contiguous start tpl -> 0 <= start -> 0 <= b ->
  tpl !! j = Some pos -> gap_pieces all_text tpl a b !! j = Some t -> t <> [] ->
  a < slot_end pos /\ slot_start pos < b /\ slot_len pos <> 0.
Proof.
  intros Hc Hs Hb Hj Ht Hne. rewrite gap_pieces_lookup, Hj in Ht.
  simplify_eq/=. destruct (contiguous_lookup _ _ _ _ Hc Hj) as (H1 & H2 & _).
  apply py_slice_nonempty in Hne; unfold slot_end in *; lia.
Qed.

(** With enough fuel the loop ends, and it has appended to each text the
    part of the span that lies in its slot. *)
Lemma gap_pieces_empty all_text start tpl a b :
  contiguous start tpl -> 0 <= start -> 0 <= b <= a ->
  Forall (fun p => p = []) (gap_pieces all_text tpl a b).
Proof.
  intros Hc Hs Hab. apply Forall_lookup_2. intros j t Ht.
  rewrite gap_pieces_lookup in Ht.
  destruct (tpl !! j) as [pos|] eqn:Hj; simplify_eq/=.
  destruct (contiguous_lookup _ _ _ _ Hc Hj) as (H1 & H2 & _).
  apply py_slice_empty; unfold slot_end; lia.
Qed.

Lemma copy_loop_spec fuel nt tpl all_text a b :
  contiguous 0 tpl -> 0 <= a <= b -> b <= slots_end 0 tpl ->
  length nt = length tpl ->
  (Z.to_nat (b - a) <= fuel)%nat ->
  PptProcessor.copy_loop fuel nt tpl all_text a b
  = Some (zip_with app nt (gap_pieces all_text tpl a b)).
Proof.
  intros Hc. revert nt a.
  assert (Hstop : forall fuel nt a, 0 <= b <= a -> length nt = length tpl ->
    PptProcessor.copy_loop fuel nt tpl all_text a b
    = Some (zip_with app nt (gap_pieces all_text tpl a b))).
  { intros f nt a Hba Hlen.
    rewrite zip_with_app_nil.
    - destruct f; simpl; by rewrite (proj2 (Z.ltb_ge _ _)) by lia.
    - by rewrite gap_pieces_length.
    - apply (gap_pieces_empty _ 0); [done|lia|lia]. }
  induction fuel as [|fuel IH]; intros nt a Hab Hb Hlen Hfuel.
  { apply Hstop; [lia|done]. }
  destruct (decide (a = b)) as [->|Hne].
  { apply Hstop; [lia|done]. }
  simpl. rewrite (proj2 (Z.ltb_lt _ _)) by lia.
  destruct (find_run_covering 0 tpl a Hc ltac:(lia))
    as (idx & pos & -> & Hidx & Hpos).
  set (a' := a + Z.min (b - a) (slot_end pos - a)).
  assert (Ha' : a' = Z.min b (slot_end pos)) by lia.
  rewrite append_at_Some by (rewrite Hlen; by eapply lookup_lt_Some).
  simpl. rewrite IH; [|lia|done|by rewrite append_piece_length|lia].
  f_equal. apply zip_append_piece.
  - intros j g' Hj Hg'. rewrite gap_pieces_lookup in Hg' |- *.
    destruct (tpl !! j) as [q|] eqn:Hq; simplify_eq/=. f_equal.
    destruct (contiguous_lookup _ _ _ _ Hc Hq) as (Hq1 & Hq2 & _).
    destruct (decide (j < idx)%nat).
    + pose proof (contiguous_mono _ _ j idx q pos Hc ltac:(lia) Hq Hidx).
      unfold slot_end in *. rewrite !py_slice_empty; [done|lia..].
    + pose proof (contiguous_mono _ _ idx j pos q Hc ltac:(lia) Hidx Hq).
      unfold slot_end in *. f_equal; lia.
  - intros g' Hg'. rewrite gap_pieces_lookup in Hg' |- *.
    rewrite Hidx in Hg' |- *. simplify_eq/=. f_equal.
    destruct (contiguous_lookup _ _ _ _ Hc Hidx) as (Hq1 & Hq2 & _).
    unfold slot_end in *.
    rewrite (py_slice_empty _ (Z.max (a + _) _)) by lia. rewrite app_nil_r.
    f_equal; lia.
  - by rewrite !gap_pieces_length.
Qed.

(** ** The runs that an occurrence overlaps *)

Lemma cover_loop_eq tpl idx os oe acc tot :
  PptProcessor.cover_loop tpl idx os oe acc tot
  = (acc ++ covered_of tpl idx os oe,
     tot + sum_Z (map snd (covered_of tpl idx os oe))).
Proof.
  revert idx acc tot. induction tpl as [|pos tpl IH]; intros idx acc tot; simpl.
  - rewrite app_nil_r. f_equal. unfold sum_Z. simpl. lia.
  - fold (slot_end pos).
    destruct ((os <? slot_end pos) && (slot_start pos <? oe)); rewrite IH.
    + rewrite <- app_assoc. simpl. f_equal. unfold sum_Z. simpl. lia.
    + done.
Qed.

Lemma covered_of_elem tpl idx os oe j pl :
  (j, pl) ∈ covered_of tpl idx os oe <->
  exists pos, (idx <= j)%nat /\ tpl !! (j - idx)%nat = Some pos /\
    os < slot_end pos /\ slot_start pos < oe /\
    pl = Z.min (slot_end pos) oe - Z.max (slot_start pos) os.
Proof.
  revert idx. induction tpl as [|p tpl IH]; intros idx; simpl.
  - split; [by intros ?%elem_of_nil | by intros (? & _ & ? & _)].
  - rewrite elem_of_app, IH. split.
    + intros [Hhd|(pos & Hle & Hj & Hpos)].
      * destruct (_ && _) eqn:Hcond; [|by apply elem_of_nil in Hhd].
        apply list_elem_of_singleton in Hhd. simplify_eq.
        apply andb_true_iff in Hcond as [?%Z.ltb_lt ?%Z.ltb_lt].
        exists p. rewrite Nat.sub_diag. done.
      * exists pos. split; [lia|]. split; [|done].
        by replace (j - idx)%nat with (S (j - S idx)) by lia.
    + intros (pos & Hle & Hj & H1 & H2 & Hpl).
      destruct (decide (j = idx)) as [->|Hne].
      * rewrite Nat.sub_diag in Hj. simplify_eq/=. left.
        rewrite (proj2 (Z.ltb_lt _ _) H1), (proj2 (Z.ltb_lt _ _) H2). simpl.
        by apply list_elem_of_singleton.
      * right. exists pos. split; [lia|]. split; [|done].
        by replace (j - idx)%nat with (S (j - S idx)) in Hj by lia.
Qed.

Lemma covered_of_sorted tpl idx os oe :
  StronglySorted lt (map fst (covered_of tpl idx os oe)).
Proof.
  revert idx. induction tpl as [|p tpl IH]; intros idx; simpl; [constructor|].
  destruct (_ && _); simpl; [|apply IH].
  constructor; [apply IH|]. apply Forall_forall. intros j Hin.
  apply list_elem_of_fmap in Hin as ([j' pl] & -> & Hin).
  apply covered_of_elem in Hin as (? & ? & _). simpl. lia.
Qed.

Lemma covered_of_sum start tpl idx os oe :
  contiguous start tpl -> os < oe ->
  sum_Z (map snd (covered_of tpl idx os oe))
  = Z.max 0 (Z.min oe (slots_end start tpl) - Z.max os start).
Proof.
  revert start idx. induction tpl as [|p tpl IH]; intros start idx Hc Hlt; simpl.
  - unfold sum_Z. simpl. lia.
  - destruct Hc as (Hs & Hl & Hc). pose proof (slots_end_ge _ _ Hc) as Hend.
    rewrite map_app. unfold sum_Z in *. rewrite foldr_app.
    specialize (IH _ (S idx) Hc Hlt).
    destruct (os <? slot_end p) eqn:H1; destruct (slot_start p <? oe) eqn:H2;
      simpl; rewrite ?IH;
      try apply Z.ltb_lt in H1; try apply Z.ltb_lt in H2;
      try apply Z.ltb_ge in H1; try apply Z.ltb_ge in H2;
      unfold slot_end in *.
    + lia.
    + lia.
    + lia.
    + lia.
Qed.

Lemma sum_Z_elem_le l x : Forall (fun y => 0 <= y) l -> x ∈ l -> x <= sum_Z l.
Proof.
  unfold sum_Z. induction 1 as [|y l Hy Hl IH]; intros Hin; simpl.
  - by apply elem_of_nil in Hin.
  - assert (0 <= foldr Z.add 0 l).
    { clear IH Hin. induction Hl; simpl; lia. }
    apply elem_of_cons in Hin as [->|Hin]; [lia|]. specialize (IH Hin). lia.
Qed.

(** A covered run, when the slots tile the text: its part of the span is
    not negative, and it is empty exactly when the run is. *)
Lemma covered_of_part tpl os oe j pl :
  contiguous 0 tpl -> os < oe -> (j, pl) ∈ covered_of tpl 0 os oe ->
  exists pos, tpl !! j = Some pos /\ os < slot_end pos /\ slot_start pos < oe /\
    0 <= pl /\ (pl = 0 <-> slot_len pos = 0).
Proof.
  intros Hc Hlt Hin. apply covered_of_elem in Hin as (pos & _ & Hj & H1 & H2 & ->).
  rewrite Nat.sub_0_r in Hj. exists pos.
  destruct (contiguous_lookup _ _ _ _ Hc Hj) as (H3 & H4 & _).
  unfold slot_end in *. repeat split; try done; lia.
Qed.

Lemma covered_of_parts_nonneg tpl os oe :
  contiguous 0 tpl -> os < oe ->
  Forall (fun pl => 0 <= pl) (map snd (covered_of tpl 0 os oe)).
Proof.
  intros Hc Hlt. apply Forall_forall. intros pl Hin.
  apply list_elem_of_fmap in Hin as ([j pl'] & -> & Hin).
  by destruct (covered_of_part _ _ _ _ _ Hc Hlt Hin) as (? & _ & _ & _ & ? & _).
Qed.

Lemma sorted_last_max l (x y : nat) :
  StronglySorted lt l -> last l = Some x -> y ∈ l -> (y <= x)%nat.
Proof.
  induction 1 as [|z l Hs IH Hz]; intros Hlast Hin; [done|].
  destruct l as [|z' l].
  - apply list_elem_of_singleton in Hin. simplify_eq/=. lia.
  - change (last (z :: z' :: l)) with (last (z' :: l)) in Hlast.
    apply elem_of_cons in Hin as [->|Hin]; [|by apply IH].
    assert (x ∈ z' :: l) as Hx.
    { apply list_elem_of_lookup. exists (length l).
      by rewrite <- Hlast, last_lookup. }
    rewrite Forall_forall in Hz. specialize (Hz _ Hx). lia.
Qed.

(** The last covered run is not an empty one: an empty run inside the span
    is followed by the run that holds the character at its position. *)
Lemma last_covered_nonzero tpl os oe j pl :
  contiguous 0 tpl -> 0 <= os < oe -> oe <= slots_end 0 tpl ->
  last (covered_of tpl 0 os oe) = Some (j, pl) -> pl <> 0.
Proof.
  intros Hc Hos Hoe Hlast Hpl. subst pl.
  assert (Hin : (j, 0) ∈ covered_of tpl 0 os oe).
  { apply list_elem_of_lookup. eexists. by rewrite <- Hlast, last_lookup. }
  destruct (covered_of_part tpl os oe j 0 Hc ltac:(lia) Hin)
    as (pos & Hj & H1 & H2 & _ & Hz).
  assert (Hlen : slot_len pos = 0) by (by apply Hz).
  destruct (contiguous_lookup _ _ _ _ Hc Hj) as (H3 & _ & _).
  destruct (contiguous_covering 0 tpl (slot_start pos) Hc ltac:(lia))
    as (j' & pos' & Hj' & Hpos').
  assert (j < j')%nat as Hjj'.
  { destruct (Nat.lt_trichotomy j j') as [|[->|Hgt]]; [done|..].
    - simplify_eq. unfold slot_end in *. lia.
    - pose proof (contiguous_mono _ _ j' j pos' pos Hc Hgt Hj' Hj). lia. }
  assert (Hin' : (j', Z.min (slot_end pos') oe - Z.max (slot_start pos') os)
                 ∈ covered_of tpl 0 os oe).
  { apply covered_of_elem. exists pos'. rewrite Nat.sub_0_r.
    unfold slot_end in *. repeat split; try done; lia. }
  pose proof (sorted_last_max (map fst (covered_of tpl 0 os oe)) j j'
    (covered_of_sorted _ _ _ _)) as Hmax.
  rewrite fmap_last, Hlast in Hmax. specialize (Hmax eq_refl).
  assert (j' ∈ map fst (covered_of tpl 0 os oe)) as Hj'in.
  { apply list_elem_of_fmap. by eexists (_, _). }
  specialize (Hmax Hj'in). lia.
Qed.

(** ** Pieces appended in the order of the runs *)

Lemma concat_append_piece_replicate n idx piece :
  (idx < n)%nat -> concat (append_piece idx piece (replicate n [])) = piece.
Proof.
  unfold append_piece. revert idx. induction n as [|n IH]; intros idx Hlt; [lia|].
  assert (Hnil : forall m, concat (replicate m ([] : text)) = []).
  { intros m. apply concat_nil_Forall, Forall_replicate. done. }
  destruct idx as [|idx]; simpl.
  - by rewrite Hnil, app_nil_r.
  - apply IH. lia.
Qed.

Lemma append_piece_replicate_lookup n idx piece j t :
  append_piece idx piece (replicate n []) !! j = Some t -> t <> [] ->
  j = idx /\ t = piece.
Proof.
  unfold append_piece. intros Ht Hne. destruct (decide (j = idx)) as [->|Hj].
  - rewrite list_lookup_alter_eq in Ht.
    destruct (replicate n [] !! idx) as [t0|] eqn:Hr; simplify_eq/=.
    apply lookup_replicate in Hr as [-> _]. done.
  - rewrite list_lookup_alter_ne in Ht by done.
    apply lookup_replicate in Ht as [-> _]. done.
Qed.

Lemma apply_pieces_support (nt : list text) pieces j t :
  apply_pieces nt pieces !! j = Some t -> t <> [] ->
  (exists t0, nt !! j = Some t0 /\ t0 <> []) \/
  (exists piece, (j, piece) ∈ pieces /\ piece <> []).
Proof.
  unfold apply_pieces. revert nt.
  induction pieces as [|[idx piece] pieces IH]; intros nt Ht Hne; simpl in *.
  { left. eauto. }
  destruct (IH _ Ht Hne) as [(t0 & Ht0 & Hne0)|(piece' & Hin & Hne')].
  - unfold append_piece in Ht0. destruct (decide (j = idx)) as [->|Hj].
    + rewrite list_lookup_alter_eq in Ht0.
      destruct (nt !! idx) as [t1|] eqn:Hnt; simplify_eq/=.
      destruct (decide (piece = [])) as [->|Hp].
      * left. exists t1. by rewrite app_nil_r in Hne0.
      * right. exists piece. split; [apply elem_of_cons; by left|done].
    + rewrite list_lookup_alter_ne in Ht0 by done. left. eauto.
  - right. exists piece'. split; [apply elem_of_cons; by right|done].
Qed.

Lemma apply_pieces_replicate_support n pieces j t :
  apply_pieces (replicate n []) pieces !! j = Some t -> t <> [] ->
  exists piece, (j, piece) ∈ pieces /\ piece <> [].
Proof.
  intros Ht Hne.
  destruct (apply_pieces_support _ _ _ _ Ht Hne) as [(t0 & Ht0 & Hne0)|]; [|done].
  apply lookup_replicate in Ht0 as [-> _]. done.
Qed.

(** Pieces whose indices increase land in the texts in the order in which
    they were appended. *)
Lemma apply_pieces_concat n pieces :
  StronglySorted lt (map fst pieces) ->
  Forall (fun p => (p.1 < n)%nat) pieces ->
  concat (apply_pieces (replicate n []) pieces) = concat (map snd pieces).
Proof.
  induction pieces as [|[idx piece] pieces IH]; intros Hs Hn.
  { simpl. apply concat_nil_Forall, Forall_replicate. done. }
  apply StronglySorted_inv in Hs as [Hs Hhd].
  apply Forall_cons in Hn as [Hidx Hn]. simpl in Hidx.
  change (apply_pieces (replicate n []) ((idx, piece) :: pieces))
    with (apply_pieces (append_piece idx piece (replicate n [])) pieces).
  rewrite apply_pieces_portions, append_piece_length, length_replicate.
  rewrite concat_zip_with_app.
  - rewrite concat_append_piece_replicate by done. simpl. f_equal. by apply IH.
  - by rewrite apply_pieces_length, append_piece_length.
  - intros i j p t Hij Hp Ht.
    destruct (decide (p = [])) as [|Hpne]; [by left|].
    destruct (decide (t = [])) as [|Htne]; [by right|]. exfalso.
    apply append_piece_replicate_lookup in Ht as [-> _]; [|done].
    destruct (apply_pieces_replicate_support _ _ _ _ Hp Hpne) as (q & Hin & _).
    rewrite Forall_forall in Hhd. specialize (Hhd i).
    assert (i ∈ map fst pieces) as Hi.
    { apply list_elem_of_fmap. by exists (i, q). }
    specialize (Hhd Hi). simpl in Hhd. lia.
Qed.

(** ** The distribution of a value *)

Lemma distribute_fst shares rest :
  map fst (distribute shares rest) = map fst shares.
Proof.
  revert rest. induction shares as [|[idx k] shares IH]; intros rest; [done|].
  destruct shares as [|s shares]; [done|].
  change (distribute ((idx, k) :: s :: shares) rest)
    with ((idx, take (Z.to_nat k) rest)
          :: distribute (s :: shares) (drop (Z.to_nat k) rest)).
  rewrite (map_cons fst (idx, take (Z.to_nat k) rest)), IH. done.
Qed.

Lemma distribute_concat shares rest :
  shares <> [] -> concat (map snd (distribute shares rest)) = rest.
Proof.
  revert rest. induction shares as [|[idx k] shares IH]; intros rest Hne; [done|].
  destruct shares as [|s shares].
  { simpl. apply app_nil_r. }
  change (distribute ((idx, k) :: s :: shares) rest)
    with ((idx, take (Z.to_nat k) rest)
          :: distribute (s :: shares) (drop (Z.to_nat k) rest)).
  rewrite (map_cons snd (idx, take (Z.to_nat k) rest)), concat_cons.
  rewrite IH by done. apply take_drop.
Qed.

Lemma distribute_nonempty shares rest j piece :
  (j, piece) ∈ distribute shares rest -> piece <> [] ->
  exists k, (j, k) ∈ shares /\ (k <> 0 \/ last shares = Some (j, k)).
Proof.
  revert rest. induction shares as [|[idx k] shares IH]; intros rest Hin Hne.
  { by apply elem_of_nil in Hin. }
  destruct shares as [|s shares].
  { apply list_elem_of_singleton in Hin. simplify_eq. exists k.
    split; [apply elem_of_cons; by left | by right]. }
  change (distribute ((idx, k) :: s :: shares) rest)
    with ((idx, take (Z.to_nat k) rest)
          :: distribute (s :: shares) (drop (Z.to_nat k) rest)) in Hin.
  apply elem_of_cons in Hin as [Heq|Hin].
  - simplify_eq. exists k. split; [apply elem_of_cons; by left|]. left.
    intros ->. done.
  - destruct (IH _ Hin Hne) as (k' & Hin' & Hk'). exists k'.
    split; [apply elem_of_cons; by right|].
    destruct Hk' as [|Hlast]; [by left | by right].
Qed.

Lemma shares_of_fst covered total rend_len shares :
  shares_of covered total rend_len shares ->
  map fst shares = map fst covered.
Proof.
  induction 1 as [|c s covered shares (Hfst & _) _ IH]; simpl; [done|].
  by rewrite Hfst, IH.
Qed.

Lemma shares_of_elem covered total rend_len shares j k :
  shares_of covered total rend_len shares -> (j, k) ∈ shares ->
  exists pl, (j, pl) ∈ covered /\
    PptProcessor.round_share pl total rend_len = Some k.
Proof.
  induction 1 as [|[j' pl] [j'' k'] covered shares (Hfst & Hr & _) _ IH];
    intros Hin; [by apply elem_of_nil in Hin|].
  simpl in *. subst j''. apply elem_of_cons in Hin as [Heq|Hin].
  - simplify_eq. exists pl. split; [apply elem_of_cons; by left|done].
  - destruct (IH Hin) as (pl' & Hin' & Hr'). exists pl'.
    split; [apply elem_of_cons; by right|done].
Qed.

Lemma shares_of_last covered total rend_len shares j k :
  shares_of covered total rend_len shares -> last shares = Some (j, k) ->
  exists pl, last covered = Some (j, pl).
Proof.
  induction 1 as [|[j' pl] [j'' k'] covered shares (Hfst & _) Hrest IH];
    intros Hlast; [done|].
  simpl in Hfst. subst j''. destruct Hrest as [|c s covered shares Hcs Hrest].
  - simplify_eq/=. by exists pl.
  - apply IH. done.
Qed.

(** ** The allocation loop *)

Lemma round_share_inv part_len total rend_len k :
  PptProcessor.round_share part_len total rend_len = Some k ->
  exists ratio, py_truediv part_len total = Some ratio /\
    py_round (py_float_mul_int ratio rend_len) = Some k.
Proof.
  unfold PptProcessor.round_share. intros H.
  destruct (py_truediv part_len total) as [ratio|]; simplify_eq/=. eauto.
Qed.

Lemma allocate_loop_step n total v L i idx part_len covered nt allocated
    ratio alloc_len :
  py_truediv part_len total = Some ratio ->
  (if i <? n - 1 then py_round (py_float_mul_int ratio L)
   else Some (L - allocated)) = Some alloc_len ->
  (idx < length nt)%nat ->
  PptProcessor.allocate_loop n total v L i ((idx, part_len) :: covered) nt
    allocated
  = PptProcessor.allocate_loop n total v L (i + 1) covered
      (append_piece idx (py_slice v allocated (allocated + alloc_len)) nt)
      (allocated + alloc_len).
Proof.
  intros H1 H2 H3. simpl. rewrite H1. simpl. rewrite H2. simpl.
  by rewrite append_at_Some.
Qed.

(** The loop appends to the covered runs, in order, what [distribute] gives
    them. *)
Lemma allocate_loop_trace n total v i covered nt allocated :
  0 < total < 2 ^ 53 -> py_len v < 2 ^ 53 ->
  Forall (fun c => 0 <= c.2 < 2 ^ 53 /\ (c.1 < length nt)%nat) covered ->
  i + py_len covered = n -> 0 <= allocated ->
  exists shares, shares_of covered total (py_len v) shares /\
    PptProcessor.allocate_loop n total v (py_len v) i covered nt allocated
    = Some (apply_pieces nt
              (distribute shares (drop (Z.to_nat allocated) v))).
Proof.
  intros Htot Hv Hcov. remember (length nt) as len eqn:Hlen.
  revert i nt allocated Hlen.
  induction Hcov as [|[idx part_len] covered [Hpl Hidx] Hcov IH];
    intros i nt allocated Hlen Hi Hal.
  { exists []. split; [constructor|done]. }
  simpl in Hpl, Hidx. subst len.
  destruct (round_share_nonneg part_len total (py_len v))
    as (k & Hk & Hk0); [done|done|split; [apply py_len_nonneg|done]|].
  destruct (round_share_inv _ _ _ _ Hk) as (ratio & Hratio & Hround).
  destruct covered as [|c covered].
  - exists [(idx, k)]. split.
    { constructor; [done|constructor]. }
    rewrite (allocate_loop_step _ _ _ _ _ _ _ _ _ _ ratio
               (py_len v - allocated) Hratio); [|..|done].
    + simpl. by rewrite py_slice_rest.
    + by rewrite (proj2 (Z.ltb_ge _ _))
        by (unfold py_len in *; simpl in *; lia).
  - destruct (IH (i + 1) (append_piece idx (take (Z.to_nat k)
        (drop (Z.to_nat allocated) v)) nt) (allocated + k))
      as (shares & Hshares & Heq).
    { by rewrite append_piece_length. }
    { unfold py_len in *. simpl length in *. lia. }
    { lia. }
    exists ((idx, k) :: shares). split.
    { constructor; [done|done]. }
    rewrite (allocate_loop_step _ _ _ _ _ _ _ _ _ _ ratio k Hratio);
      [|..|done].
    + rewrite py_slice_take_drop by done.
      rewrite Heq. f_equal. inversion Hshares as [|? s ? shares' ? ?]; subst.
      change (distribute ((idx, k) :: s :: shares') ?r)
        with ((idx, take (Z.to_nat k) r)
              :: distribute (s :: shares') (drop (Z.to_nat k) r)).
      unfold apply_pieces at 2. simpl foldl. fold (apply_pieces
        (append_piece idx (take (Z.to_nat k) (drop (Z.to_nat allocated) v))
           nt)).
      rewrite drop_drop.
      by replace (Z.to_nat (allocated + k))
        with (Z.to_nat allocated + Z.to_nat k)%nat by lia.
    + by rewrite (proj2 (Z.ltb_lt _ _))
        by (unfold py_len in *; simpl length in *; lia).
Qed.

Lemma cover_loop_ready tpl ph os oe :
  allocation_ready tpl ph os oe ->
  PptProcessor.cover_loop tpl 0 os oe [] 0 = (covered_of tpl 0 os oe, oe - os)
  /\ covered_of tpl 0 os oe <> [] /\
  Forall (fun c => 0 <= c.2 < 2 ^ 53 /\ (c.1 < length tpl)%nat)
    (covered_of tpl 0 os oe).
Proof.
  intros (Hc & Hos & Hoe & Hend & _ & _).
  pose proof (covered_of_sum 0 tpl 0%nat os oe Hc ltac:(lia)) as Hsum.
  replace (Z.max 0 (Z.min oe (slots_end 0 tpl) - Z.max os 0)) with (oe - os)
    in Hsum by lia.
  split; [|split].
  - rewrite cover_loop_eq, Hsum. done.
  - intros Hnil. rewrite Hnil in Hsum. unfold sum_Z in Hsum. simpl in Hsum. lia.
  - pose proof (covered_of_parts_nonneg tpl os oe Hc ltac:(lia)) as Hnn.
    apply Forall_forall. intros [j pl] Hin. simpl.
    assert (pl ∈ map snd (covered_of tpl 0 os oe)) as Hpl.
    { apply list_elem_of_fmap. by exists (j, pl). }
    pose proof (sum_Z_elem_le _ _ Hnn Hpl).
    rewrite Forall_forall in Hnn. specialize (Hnn _ Hpl). simpl in Hnn.
    split; [lia|].
    destruct (covered_of_part tpl os oe j pl Hc ltac:(lia) Hin)
      as (pos & Hpos & _).
    by eapply lookup_lt_Some.
Qed.

Lemma allocate_trace nt tpl ph os oe :
  allocation_ready tpl ph os oe -> length nt = length tpl ->
  exists shares,
    shares_of (covered_of tpl 0 os oe) (oe - os) (rendered_length ph) shares /\
    PptProcessor._allocate_rendered_value nt tpl ph os oe
    = Some (apply_pieces nt (distribute shares (rendered_value ph))).
Proof.
  intros Hready Hnt.
  destruct (cover_loop_ready _ _ _ _ Hready) as (Hcov & Hne & Hb).
  destruct Hready as (Hc & Hos & Hoe & Hend & Hlen & Hv).
  unfold PptProcessor._allocate_rendered_value. rewrite Hcov.
  destruct (decide (oe - os = 0)) as [|_]; [lia|]. rewrite Hlen.
  destruct (allocate_loop_trace (py_len (covered_of tpl 0 os oe)) (oe - os)
    (rendered_value ph) 0 (covered_of tpl 0 os oe) nt 0)
    as (shares & Hshares & Heq); [lia|done|by rewrite Hnt|lia|lia|].
  exists shares. split; [done|]. by rewrite Heq.
Qed.

(** What one call appends to the texts, run by run: the portions make up the
    value, and only runs that hold a part of the span receive one. *)
Lemma allocate_portions nt tpl ph os oe :
  allocation_ready tpl ph os oe -> length nt = length tpl ->
  exists P, length P = length tpl /\
    PptProcessor._allocate_rendered_value nt tpl ph os oe
    = Some (zip_with app nt P) /\
    concat P = rendered_value ph /\
    (forall j pos t, tpl !! j = Some pos -> P !! j = Some t -> t <> [] ->
       os < slot_end pos /\ slot_start pos < oe /\ slot_len pos <> 0).
Proof.
  intros Hready Hnt. destruct (allocate_trace nt _ _ _ _ Hready Hnt)
    as (shares & Hshares & Heq).
  destruct (cover_loop_ready _ _ _ _ Hready) as (_ & Hne & _).
  destruct Hready as (Hc & Hos & Hoe & Hend & Hlen & Hv).
  set (pieces := distribute shares (rendered_value ph)) in *.
  exists (apply_pieces (replicate (length nt) []) pieces).
  assert (Hfst : map fst pieces = map fst (covered_of tpl 0 os oe)).
  { unfold pieces. rewrite distribute_fst. by eapply shares_of_fst. }
  split; [|split; [|split]].
  - by rewrite apply_pieces_length, length_replicate.
  - by rewrite Heq, apply_pieces_portions.
  - rewrite apply_pieces_concat.
    + apply distribute_concat. intros ->. inversion Hshares; simplify_eq.
    + rewrite Hfst. apply covered_of_sorted.
    + apply Forall_forall. intros [j piece] Hin. simpl.
      assert (j ∈ map fst (covered_of tpl 0 os oe)) as Hj.
      { rewrite <- Hfst. apply list_elem_of_fmap. by exists (j, piece). }
      apply list_elem_of_fmap in Hj as ([j' pl] & -> & Hj).
      destruct (covered_of_part tpl os oe j' pl Hc ltac:(lia) Hj)
        as (pos & Hpos & _). simpl. rewrite Hnt. by eapply lookup_lt_Some.
  - intros j pos t Hj Ht Htne.
    destruct (apply_pieces_replicate_support _ _ _ _ Ht Htne)
      as (piece & Hin & Hpne).
    destruct (distribute_nonempty _ _ _ _ Hin Hpne) as (k & Hk & Hcase).
    destruct (shares_of_elem _ _ _ _ _ _ Hshares Hk) as (pl & Hpl & Hround).
    destruct (covered_of_part tpl os oe j pl Hc ltac:(lia) Hpl)
      as (pos' & Hpos' & H1 & H2 & _ & Hz).
    simplify_eq. split; [done|]. split; [done|]. intros Hzero.
    destruct Hcase as [Hk0|Hlast].
    + apply Hz in Hzero. subst pl.
      rewrite round_share_zero in Hround; [congruence|lia|].
      rewrite Hlen. split; [apply py_len_nonneg|done].
    + destruct (shares_of_last _ _ _ _ _ _ Hshares Hlast) as (pl' & Hlast').
      pose proof (last_covered_nonzero tpl os oe j pl' Hc Hos Hoe Hlast') as Hnz.
      assert ((j, pl') ∈ covered_of tpl 0 os oe) as Hin'.
      { apply list_elem_of_lookup. eexists. by rewrite <- Hlast', last_lookup. }
      destruct (covered_of_part tpl os oe j pl' Hc ltac:(lia) Hin')
        as (pos'' & Hpos'' & _ & _ & _ & Hz').
      simplify_eq. by apply Hnz, Hz'.
Qed.

(** ** The resolver *)

Lemma lazy_dots_length s g : lazy_dots s = Some g -> (g + 2 <= length s)%nat.
Proof.
  revert g. induction s as [|c s IH]; intros g Hg; [done|].
  change (lazy_dots (c :: s))
    with (if closes (c :: s) then Some 0%nat
          else if is_char newline c then None else S <$> lazy_dots s) in Hg.
  destruct (closes (c :: s)) eqn:Hcl.
  - simplify_eq. destruct s; simpl in *; [done|lia].
  - destruct (is_char newline c); [done|].
    destruct (lazy_dots s) as [g'|]; simplify_eq/=.
    specialize (IH _ eq_refl). lia.
Qed.

Lemma match_here_length s g :
  match_here s = Some g -> (1 <= g /\ g + 4 <= length s)%nat.
Proof.
  intros Hm. destruct s as [|c1 [|c2 [|c s]]]; try done.
  unfold match_here in Hm. destruct (_ && _); [|done].
  destruct (lazy_dots s) as [g'|] eqn:Hg; simplify_eq/=.
  apply lazy_dots_length in Hg. lia.
Qed.

Lemma match_chain_weaken lo lo' hi ms :
  match_chain lo hi ms -> lo' <= lo -> match_chain lo' hi ms.
Proof. destruct ms; simpl; [lia|]. intros (? & ? & ?) ?. repeat split; [lia..|done]. Qed.

Lemma finditer_from_chain s pos skip :
  (skip <= length s)%nat ->
  match_chain (pos + Z.of_nat skip) (pos + py_len s) (finditer_from s pos skip).
Proof.
  revert pos skip. induction s as [|c s IH]; intros pos skip Hskip.
  { simpl in *. unfold py_len. simpl. lia. }
  assert (Hlen : pos + py_len (c :: s) = pos + 1 + py_len s).
  { unfold py_len. simpl length. lia. }
  rewrite Hlen. simpl finditer_from. destruct skip as [|k].
  - destruct (match_here (c :: s)) as [g|] eqn:Hm.
    + apply match_here_length in Hm. simpl in Hm. simpl match_chain.
      split; [lia|]. split; [lia|].
      replace (pos + Z.of_nat g + 4) with (pos + 1 + Z.of_nat (g + 3)) by lia.
      apply IH. lia.
    + specialize (IH (pos + 1) 0%nat ltac:(lia)).
      apply (match_chain_weaken _ _ _ _ IH). lia.
  - specialize (IH (pos + 1) k ltac:(simpl in Hskip; lia)).
    by replace (pos + Z.of_nat (S k)) with (pos + 1 + Z.of_nat k) by lia.
Qed.

Lemma finditer_chain all_text :
  match_chain 0 (py_len all_text) (finditer all_text).
Proof. apply (finditer_from_chain all_text 0 0). lia. Qed.

Lemma placeholder_chain_le lo hi pl : placeholder_chain lo hi pl -> lo <= hi.
Proof.
  revert lo. induction pl as [|ph pl IH]; intros lo; simpl; [done|].
  intros (H1 & H2 & _ & H3). specialize (IH _ H3). lia.
Qed.

Lemma occurrences_chain {Value} (py_str : Value -> text) context lo hi ms pl :
  Forall2 (occurrence_of py_str context) ms pl ->
  match_chain lo hi ms -> placeholder_chain lo hi pl.
Proof.
  intros HF. revert lo.
  induction HF as [|m ph ms pl (Hs & Hl & _ & _ & Hr) _ IH]; intros lo;
    simpl; [done|].
  intros (H1 & H2 & H3). rewrite Hs, Hl.
  split; [done|]. split; [lia|]. split; [done|].
  replace (m_start m + (m_end m - m_start m)) with (m_end m) by lia.
  by apply IH.
Qed.

Lemma render_matches_spec {Value} (py_str : Value -> text) context all_text
    ms pl0 rt0 le :
  exists pl rt' le',
    TemplateRenderer.render_matches py_str context all_text ms pl0 rt0 le
    = (pl0 ++ pl, rt', le') /\
    Forall2 (occurrence_of py_str context) ms pl /\
    rt' ++ py_slice_from all_text le' = rt0 ++ splice all_text pl le.
Proof.
  revert pl0 rt0 le. induction ms as [|m ms IH]; intros pl0 rt0 le.
  { exists [], rt0, le. simpl. rewrite app_nil_r.
    split; [done|]. split; [constructor|done]. }
  simpl TemplateRenderer.render_matches.
  set (gap := py_slice all_text le (m_start m)).
  set (value := TemplateRenderer.context_get py_str context
                  (strip (m_group1 m))).
  set (ph := {| original_start := m_start m;
                original_length := m_end m - m_start m;
                rendered_start := py_len (rt0 ++ gap);
                rendered_length := py_len value;
                placeholder := strip (m_group1 m);
                rendered_value := value |}).
  destruct (IH (pl0 ++ [ph]) ((rt0 ++ gap) ++ value) (m_end m))
    as (pl & rt' & le' & Heq & HF & Hrt).
  exists (ph :: pl), rt', le'. rewrite Heq. split; [|split].
  - by rewrite <- app_assoc.
  - by constructor.
  - rewrite Hrt. simpl.
    replace (m_start m + (m_end m - m_start m)) with (m_end m) by lia.
    by rewrite <- !app_assoc.
Qed.

(** The resolver returns the occurrences of the matches, in order, and the
    text spliced from the gaps and the values. *)
Lemma cal_render_position_spec {Value} (py_str : Value -> text) context
    all_text :
  exists pl,
    TemplateRenderer.cal_render_position py_str context all_text
    = (splice all_text pl 0, pl) /\
    Forall2 (occurrence_of py_str context) (finditer all_text) pl.
Proof.
  unfold TemplateRenderer.cal_render_position.
  destruct (render_matches_spec py_str context all_text (finditer all_text)
    [] [] 0) as (pl & rt' & le' & Heq & HF & Hrt).
  rewrite Heq. exists pl. split; [|done]. simpl. by rewrite Hrt.
Qed.

(** ** The reflow invariant *)

(** Appending portions that belong to runs reaching beyond [c] keeps the
    characters in order. *)
Lemma reflow_inv_step tpl c c' nt P :
  contiguous 0 tpl -> reflow_inv tpl c nt -> length P = length tpl ->
  c <= c' ->
  (forall j pos t, tpl !! j = Some pos -> P !! j = Some t -> t <> [] ->
     c < slot_end pos /\ slot_start pos < c' /\ slot_len pos <> 0) ->
  reflow_inv tpl c' (zip_with app nt P) /\
  concat (zip_with app nt P) = concat nt ++ concat P.
Proof.
  intros Hc (Hlen & Hinv) HP Hcc' Hsupp. split; [split|].
  - rewrite length_zip_with. lia.
  - intros j pos t Hj Ht Hne. apply lookup_zip_with_Some in Ht
      as (tn & tp & -> & Htn & Htp).
    destruct (decide (tn = [])) as [->|Hn].
    + destruct (Hsupp j pos tp Hj Htp) as (_ & ? & ?); [|done].
      intros ->. done.
    + destruct (Hinv j pos tn Hj Htn Hn). split; [lia|done].
  - apply concat_zip_with_app; [lia|].
    intros i j p t Hij Hp Ht.
    destruct (decide (p = [])) as [|Hpne]; [by left|].
    destruct (decide (t = [])) as [|Htne]; [by right|]. exfalso.
    destruct (lookup_lt_is_Some_2 tpl i) as [pi Hpi].
    { rewrite <- HP. by eapply lookup_lt_Some. }
    destruct (lookup_lt_is_Some_2 tpl j) as [pj Hpj].
    { rewrite <- Hlen. by eapply lookup_lt_Some. }
    destruct (Hsupp i pi p Hpi Hp Hpne) as (H1 & _).
    destruct (Hinv j pj t Hpj Ht Htne) as (H2 & _).
    pose proof (contiguous_mono _ _ i j pi pj Hc Hij Hpi Hpj). lia.
Qed.

Lemma copy_step fuel tpl all_text nt a b :
  contiguous 0 tpl -> reflow_inv tpl a nt -> 0 <= a <= b ->
  b <= slots_end 0 tpl -> (Z.to_nat (b - a) <= fuel)%nat ->
  exists nt',
    PptProcessor._copy_non_placeholder fuel nt tpl all_text a b = Some nt' /\
    reflow_inv tpl b nt' /\
    concat nt' = concat nt ++ py_slice all_text a b.
Proof.
  intros Hc Hinv Hab Hb Hfuel. unfold PptProcessor._copy_non_placeholder.
  rewrite copy_loop_spec; [|done|done|done|by destruct Hinv|done].
  eexists. split; [done|].
  destruct (reflow_inv_step tpl a b nt (gap_pieces all_text tpl a b))
    as (Hinv' & Hcat); [done|done|apply gap_pieces_length|lia| |].
  - intros j pos t Hj Ht Hne.
    apply (gap_pieces_support all_text 0 tpl a b j pos t); (done || lia).
  - split; [done|]. rewrite Hcat. f_equal.
    rewrite (concat_gap_pieces all_text 0) by (done || lia). f_equal; lia.
Qed.

Lemma allocate_step tpl ph nt os oe :
  allocation_ready tpl ph os oe -> reflow_inv tpl os nt ->
  exists nt',
    PptProcessor._allocate_rendered_value nt tpl ph os oe = Some nt' /\
    reflow_inv tpl oe nt' /\
    concat nt' = concat nt ++ rendered_value ph.
Proof.
  intros Hready Hinv. destruct (allocate_portions nt tpl ph os oe Hready)
    as (P & HP & Heq & Hcat & Hsupp); [by destruct Hinv|].
  destruct Hready as (Hc & Hos & _).
  exists (zip_with app nt P). split; [done|].
  destruct (reflow_inv_step tpl os oe nt P) as (Hinv' & Hcat');
    [done|done|done|lia|done|].
  split; [done|]. by rewrite Hcat', Hcat.
Qed.

Lemma placeholder_loop_spec fuel tpl all_text pl nt cur :
  contiguous 0 tpl -> slots_end 0 tpl = py_len all_text ->
  py_len all_text < 2 ^ 53 ->
  Forall (fun ph => py_len (rendered_value ph) < 2 ^ 53) pl ->
  (length all_text <= fuel)%nat ->
  placeholder_chain cur (py_len all_text) pl -> 0 <= cur ->
  reflow_inv tpl cur nt ->
  exists nt' cur',
    PptProcessor.placeholder_loop fuel tpl all_text pl nt cur
    = Some (nt', cur') /\
    reflow_inv tpl cur' nt' /\ cur <= cur' <= py_len all_text /\
    concat nt' ++ py_slice_from all_text cur'
    = concat nt ++ splice all_text pl cur.
Proof.
  intros Hc Hend Hsmall Hvals Hfuel. revert nt cur.
  induction Hvals as [|ph pl Hv Hvals IH]; intros nt cur Hchain Hcur Hinv.
  { simpl in *. exists nt, cur. split; [done|]. split; [done|]. split; [lia|done]. }
  destruct Hchain as (Hos & Hol & Hrl & Hchain).
  pose proof (placeholder_chain_le _ _ _ Hchain) as Hoe.
  simpl PptProcessor.placeholder_loop.
  destruct (copy_step fuel tpl all_text nt cur (original_start ph))
    as (nt1 & -> & Hinv1 & Hcat1); [done|done|lia|lia| |].
  { unfold py_len in *. lia. }
  simpl.
  destruct (allocate_step tpl ph nt1 (original_start ph)
    (original_start ph + original_length ph))
    as (nt2 & -> & Hinv2 & Hcat2); [|done|].
  { repeat split; try done; lia. }
  simpl.
  destruct (IH nt2 (original_start ph + original_length ph))
    as (nt' & cur' & -> & Hinv' & Hcur' & Hcat'); [done|lia|done|].
  exists nt', cur'. split; [done|]. split; [done|]. split; [lia|].
  rewrite Hcat', Hcat2, Hcat1. by rewrite <- !app_assoc.
Qed.

(** ** The slots of a paragraph and the commit *)

Lemma build_positions_length {Style} (runs : list (Run Style)) i start :
  length (PptProcessor.build_positions runs i start) = length runs.
Proof.
  revert i start. induction runs as [|r runs IH]; intros i start; simpl; [done|].
  by rewrite IH.
Qed.

Lemma build_positions_contiguous {Style} (runs : list (Run Style)) i start :
  contiguous start (PptProcessor.build_positions runs i start).
Proof.
  revert i start. induction runs as [|r runs IH]; intros i start; simpl; [done|].
  split; [done|]. split; [apply py_len_nonneg|]. apply IH.
Qed.

Lemma build_positions_end {Style} (runs : list (Run Style)) i start :
  slots_end start (PptProcessor.build_positions runs i start)
  = start + py_len (concat (map run_text runs)).
Proof.
  revert i start. induction runs as [|r runs IH]; intros i start; simpl.
  - unfold py_len. simpl. lia.
  - rewrite IH. unfold slot_end. simpl. rewrite py_len_app. lia.
Qed.

Lemma build_positions_lookup {Style} (runs : list (Run Style)) i start j pos :
  PptProcessor.build_positions runs i start !! j = Some pos ->
  slot_run pos = (i + j)%nat /\
  exists r, runs !! j = Some r /\ slot_len pos = py_len (run_text r).
Proof.
  revert i start j. induction runs as [|r runs IH]; intros i start j Hj; [done|].
  destruct j as [|j]; simpl in Hj.
  - simplify_eq. simpl. split; [lia|]. by exists r.
  - destruct (IH _ _ _ Hj) as (Hrun & r' & Hr' & Hlen).
    split; [lia|]. by exists r'.
Qed.

Lemma build_positions_texts {Style} (runs : list (Run Style)) :
  map (PptProcessor.run_text_of runs) (PptProcessor.build_positions runs 0 0)
  = map run_text runs.
Proof.
  apply list_eq. intros j. rewrite !list_lookup_fmap.
  destruct (PptProcessor.build_positions runs 0 0 !! j) as [pos|] eqn:Hj.
  - destruct (build_positions_lookup _ _ _ _ _ Hj) as (Hrun & r & Hr & _).
    rewrite Hr. simpl. unfold PptProcessor.run_text_of.
    simpl in Hrun. by rewrite Hrun, Hr.
  - apply lookup_ge_None in Hj. rewrite build_positions_length in Hj.
    by rewrite (proj2 (lookup_ge_None runs j)).
Qed.

Lemma commit_texts_spec {Style} tpl (runs : list (Run Style)) i nts :
  (forall j pos, tpl !! j = Some pos -> slot_run pos = j) ->
  length tpl = length runs -> (i + length nts = length runs)%nat ->
  PptProcessor.commit_texts tpl i nts runs
  = Some (take i runs ++ zip_with set_run_text nts (drop i runs)).
Proof.
  intros Hrun Htpl. revert i runs Htpl.
  induction nts as [|nt nts IH]; intros i runs Htpl Hlen; simpl in *.
  { by rewrite app_nil_r, take_ge by lia. }
  destruct (lookup_lt_is_Some_2 tpl i) as [pos Hpos]; [lia|].
  rewrite Hpos. simpl. rewrite (Hrun _ _ Hpos).
  rewrite IH; [|by rewrite length_alter|rewrite length_alter; lia].
  f_equal. destruct (lookup_lt_is_Some_2 runs i) as [r Hr]; [lia|].
  rewrite (take_S_r _ _ (set_run_text nt r)).
  2: { by rewrite list_lookup_alter_eq, Hr. }
  rewrite take_alter_ge by lia. rewrite <- app_assoc. f_equal.
  rewrite (drop_S runs _ _ Hr). simpl. f_equal.
  by rewrite drop_alter_lt by lia.
Qed.

Lemma escape_ctrl_chars_app s t :
  _escape_ctrl_chars (s ++ t) = _escape_ctrl_chars s ++ _escape_ctrl_chars t.
Proof. unfold _escape_ctrl_chars. by rewrite map_app, concat_app. Qed.

Lemma escape_ctrl_chars_concat l :
  _escape_ctrl_chars (concat l) = concat (map _escape_ctrl_chars l).
Proof.
  induction l as [|s l IH]; simpl; [done|].
  by rewrite escape_ctrl_chars_app, IH.
Qed.

Lemma escape_ctrl_chars_free s : ctrl_free s -> _escape_ctrl_chars s = s.
Proof.
  unfold _escape_ctrl_chars.
  induction 1 as [|c s Hc _ IH]; simpl; [done|]. by rewrite Hc, IH.
Qed.

Lemma zip_set_run_text_texts {Style} (runs : list (Run Style)) nts :
  length nts = length runs ->
  map run_text (zip_with set_run_text nts runs) = map _escape_ctrl_chars nts.
Proof.
  revert nts. induction runs as [|r runs IH]; intros [|nt nts] Hlen;
    simplify_eq/=; [done|]. by rewrite IH.
Qed.

(** ** The reflow of a paragraph *)

Lemma occurrences_small {Value} (py_str : Value -> text) context all_text
    ms pl :
  small_enough py_str context all_text ->
  Forall2 (occurrence_of py_str context) ms pl ->
  Forall (fun ph => py_len (rendered_value ph) < 2 ^ 53) pl.
Proof.
  intros (_ & Hsmall). induction 1 as [|m ph ms pl (_ & _ & _ & Hv & _) _ IH];
    constructor; [|done].
  rewrite Hv. unfold TemplateRenderer.context_get.
  destruct (context !! placeholder ph) as [v|] eqn:Hctx; [by eapply Hsmall|].
  unfold py_len. simpl. lia.
Qed.

(** Without an occurrence the reflow assigns no run, and the rendered text is
    the source text. *)
Lemma reflow_no_occurrence {Value Style} (py_str : Value -> text) fuel
    context (runs : list (Run Style)) :
  (TemplateRenderer.cal_render_position py_str context
     (concat (map run_text runs))).2 = [] ->
  PptProcessor.replace_paragraph_runs py_str fuel context runs = Some runs /\
  (TemplateRenderer.cal_render_position py_str context
     (concat (map run_text runs))).1 = concat (map run_text runs).
Proof.
  unfold PptProcessor.replace_paragraph_runs.
  rewrite build_positions_texts.
  destruct (cal_render_position_spec py_str context
    (concat (map run_text runs))) as (pl & -> & _).
  simpl. intros ->. split; [done|]. simpl. apply py_slice_all.
Qed.

(** With an occurrence, enough fuel, and texts and values shorter than
    [2 ^ 53], the reflow returns: every run keeps its place and its style and
    is assigned the text accumulated for it; the accumulated texts, in order,
    make up the rendered text; nothing is accumulated for an empty run. *)
Lemma reflow_main {Value Style} (py_str : Value -> text) fuel context
    (runs : list (Run Style)) :
  let all_text := concat (map run_text runs) in
  small_enough py_str context all_text ->
  (length all_text <= fuel)%nat ->
  (TemplateRenderer.cal_render_position py_str context all_text).2 <> [] ->
  exists new_texts,
    accumulated_texts fuel (PptProcessor.build_positions runs 0 0) all_text
      (TemplateRenderer.cal_render_position py_str context all_text).2
    = Some new_texts /\
    length new_texts = length runs /\
    PptProcessor.replace_paragraph_runs py_str fuel context runs
    = Some (zip_with set_run_text new_texts runs) /\
    concat new_texts
    = (TemplateRenderer.cal_render_position py_str context all_text).1 /\
    (forall j r t, runs !! j = Some r -> run_text r = [] ->
       new_texts !! j = Some t -> t = []).
Proof.
  intros all_text Hsmall Hfuel.
  unfold PptProcessor.replace_paragraph_runs, accumulated_texts.
  rewrite build_positions_texts. fold all_text.
  destruct (cal_render_position_spec py_str context all_text)
    as (pl & Hcal & HF).
  rewrite Hcal. simpl fst. simpl snd. intros Hpl.
  destruct pl as [|ph pl]; [done|].
  set (tpl := PptProcessor.build_positions runs 0 0) in *.
  assert (Hc : contiguous 0 tpl) by apply build_positions_contiguous.
  assert (Hend : slots_end 0 tpl = py_len all_text).
  { unfold tpl. rewrite build_positions_end. fold all_text. lia. }
  assert (Htpl : length tpl = length runs) by apply build_positions_length.
  pose proof (occurrences_chain py_str context 0 (py_len all_text) _ _ HF
    (finditer_chain all_text)) as Hchain.
  pose proof (occurrences_small py_str context all_text _ _ Hsmall HF)
    as Hvals.
  destruct (placeholder_loop_spec fuel tpl all_text (ph :: pl)
    (replicate (length tpl) []) 0)
    as (nt1 & cur & -> & Hinv1 & Hcur & Hcat1);
    [done|done|by destruct Hsmall|done|done|done|lia| |].
  { split; [apply length_replicate|]. intros j pos t _ Ht Hne.
    apply lookup_replicate in Ht as [-> _]. done. }
  simpl.
  destruct (copy_step fuel tpl all_text nt1 cur (py_len all_text))
    as (nt2 & -> & (Hlen2 & Hinv2) & Hcat2); [done|done|lia|lia| |].
  { unfold py_len in *. lia. }
  simpl. rewrite (commit_texts_spec tpl runs 0 nt2); [|..|lia].
  - exists nt2. rewrite take_0, drop_0. simpl.
    split; [done|]. split; [lia|]. split; [done|]. split.
    + rewrite Hcat2, py_slice_to_end by lia. rewrite Hcat1.
      assert (concat (replicate (length tpl) ([] : text)) = []) as ->; [|done].
      apply concat_nil_Forall, Forall_replicate. done.
    + intros j r t Hr Hempty Ht.
      destruct (decide (t = [])) as [|Hne]; [done|]. exfalso.
      destruct (lookup_lt_is_Some_2 tpl j) as [pos Hpos].
      { rewrite Htpl. by eapply lookup_lt_Some. }
      destruct (Hinv2 j pos t Hpos Ht Hne) as (_ & Hnz).
      destruct (build_positions_lookup _ _ _ _ _ Hpos) as (_ & r' & Hr' & Hl).
      simplify_eq. rewrite Hempty in Hl. unfold py_len in Hl. simpl in Hl. lia.
  - intros j pos Hpos.
    by destruct (build_positions_lookup _ _ _ _ _ Hpos) as (-> & _).
  - done.
Qed.

(** The joined texts of the runs that the reflow returns. *)
Lemma reflow_joined {Value Style} (py_str : Value -> text) fuel context
    (runs : list (Run Style)) :
  small_enough py_str context (concat (map run_text runs)) ->
  (length (concat (map run_text runs)) <= fuel)%nat ->
  exists runs',
    PptProcessor.replace_paragraph_runs py_str fuel context runs = Some runs'
    /\ concat (map run_text runs')
       = reflowed_text py_str context (concat (map run_text runs)).
Proof.
  intros Hsmall Hfuel. unfold reflowed_text.
  destruct (TemplateRenderer.cal_render_position py_str context
    (concat (map run_text runs))) as [rendered pl] eqn:Hcal.
  destruct pl as [|ph pl].
  - destruct (reflow_no_occurrence py_str fuel context runs) as [-> Hr].
    { by rewrite Hcal. }
    exists runs. split; [done|]. by rewrite Hcal in Hr.
  - destruct (reflow_main py_str fuel context runs Hsmall Hfuel)
      as (nts & _ & Hlen & -> & Hcat & _).
    { by rewrite Hcal. }
    eexists. split; [done|].
    rewrite zip_set_run_text_texts by done.
    rewrite <- escape_ctrl_chars_concat, Hcat. by rewrite Hcal.
Qed.

(** ** The placeholder syntax *)

Lemma is_char_true d c : is_char d c = true <-> c = d.
Proof. unfold is_char. apply bool_decide_eq_true. Qed.

Lemma is_char_false d c : is_char d c = false <-> c <> d.
Proof. unfold is_char. apply bool_decide_eq_false. Qed.

Lemma closes_spec s : closes s = true <-> closes_at s 0.
Proof.
  unfold closes_at. destruct s as [|c1 [|c2 s]]; simpl.
  - split; [done|]. by intros [? _].
  - split; [done|]. by intros [_ ?].
  - rewrite andb_true_iff, !is_char_true. split.
    + by intros [-> ->].
    + intros [? ?]. by simplify_eq.
Qed.

Lemma closes_at_cons c s j : closes_at (c :: s) (S j) <-> closes_at s j.
Proof. done. Qed.

Lemma lazy_dots_cons c s :
  lazy_dots (c :: s)
  = if closes (c :: s) then Some 0%nat
    else if is_char newline c then None else S <$> lazy_dots s.
Proof. done. Qed.

(** [lazy_dots] finds the first closing braces, provided no line feed comes
    before them. *)
Lemma lazy_dots_spec s g :
  lazy_dots s = Some g <->
  closes_at s g /\ (forall j, (j < g)%nat -> ~ closes_at s j) /\
  (forall j c, (j < g)%nat -> s !! j = Some c -> c <> newline).
Proof.
  revert g. induction s as [|c s IH]; intros g.
  { split; [done|]. by intros ([? _] & _). }
  rewrite lazy_dots_cons. destruct (closes (c :: s)) eqn:Hcl.
  - apply closes_spec in Hcl. split.
    + intros [= <-]. split; [done|]. split; intros; lia.
    + intros (_ & Hfirst & _). destruct g as [|g]; [done|].
      destruct (Hfirst 0%nat); [lia|done].
  - assert (Hno : ~ closes_at (c :: s) 0).
    { intros H%closes_spec. congruence. }
    destruct (is_char newline c) eqn:Hnl.
    + apply is_char_true in Hnl. split; [done|].
      intros (Hcl' & _ & Hnonl). destruct g as [|g]; [done|].
      destruct (Hnonl 0%nat c); [lia|done|done].
    + apply is_char_false in Hnl. destruct g as [|g].
      * split; [by destruct (lazy_dots s)|]. by intros (? & _).
      * rewrite closes_at_cons. split.
        -- destruct (lazy_dots s) as [g'|] eqn:Hg; [|done].
           intros [= <-]. destruct (proj1 (IH g') eq_refl) as (H1 & H2 & H3).
           split; [done|]. split.
           ++ intros [|j] Hj; [done|]. rewrite closes_at_cons. apply H2. lia.
           ++ intros [|j] c' Hj Hc'; simpl in Hc'; [by simplify_eq|].
              apply (H3 j); [lia|done].
        -- intros (H1 & H2 & H3). rewrite (proj2 (IH g)); [done|].
           split; [done|]. split.
           ++ intros j Hj. rewrite <- (closes_at_cons c). apply H2. lia.
           ++ intros j c' Hj Hc'. apply (H3 (S j)); [lia|done].
Qed.

(** The pattern matches at the head of [s] exactly when [s] begins with a
    placeholder. *)
Lemma match_here_spec s g : match_here s = Some g <-> placeholder_at s g.
Proof.
  unfold placeholder_at, match_here.
  destruct s as [|c1 [|c2 [|c s]]].
  - split; [done|]. by intros (? & _).
  - split; [done|]. by intros (_ & ? & _).
  - split; [done|]. intros (_ & _ & Hg & _ & [Hcl _] & _).
    destruct g; [lia|done].
  - destruct (is_char lbrace c1) eqn:H1; simpl.
    2: { split; [done|]. intros (Hc1 & _). simpl in Hc1.
         apply is_char_false in H1. by simplify_eq. }
    destruct (is_char lbrace c2) eqn:H2; simpl.
    2: { split; [done|]. intros (_ & Hc2 & _). simpl in Hc2.
         apply is_char_false in H2. by simplify_eq. }
    apply is_char_true in H1, H2. subst c1 c2.
    destruct (is_char newline c) eqn:H3; simpl.
    { apply is_char_true in H3. split; [done|].
      intros (_ & _ & Hg & Hnonl & _). destruct (Hnonl 2%nat c); [lia|done|done]. }
    apply is_char_false in H3. destruct g as [|g].
    { split; [by destruct (lazy_dots s)|]. intros (_ & _ & ? & _). lia. }
    transitivity (lazy_dots s = Some g).
    { destruct (lazy_dots s); simpl; split; intros; by simplify_eq. }
    rewrite lazy_dots_spec. split.
    + intros (Hcl & Hfirst & Hnonl). split; [done|]. split; [done|].
      split; [lia|]. split; [|split].
      * intros [|[|[|j]]] c' Hj Hc'; try lia; simpl in Hc'; [by simplify_eq|].
        apply (Hnonl j); [lia|done].
      * done.
      * intros [|[|[|j]]] Hj; try lia. change (~ closes_at s j).
        apply Hfirst. lia.
    + intros (_ & _ & _ & Hnonl & Hcl & Hfirst). split; [done|]. split.
      * intros j Hj. apply (Hfirst (3 + j)%nat). lia.
      * intros j c' Hj Hc'. apply (Hnonl (3 + j)%nat); [lia|done].
Qed.

Lemma scanned_extend all_text lo ms :
  scanned all_text (S lo) ms ->
  (forall g, ~ placeholder_at (drop lo all_text) g) ->
  scanned all_text lo ms.
Proof.
  intros Hsc Hlo. destruct ms as [|m ms]; simpl in *.
  - intros i g Hi. destruct (decide (i = lo)) as [->|]; [done|].
    apply Hsc. lia.
  - destruct Hsc as (i & g & H1 & H2 & H3 & H4 & H5 & H6 & H7).
    exists i, g. split; [done|]. split; [lia|]. split; [done|].
    split; [done|]. split; [done|]. split; [|done].
    intros i' g' Hi'. destruct (decide (i' = lo)) as [->|]; [done|].
    apply H6. lia.
Qed.

Lemma finditer_from_scanned all_text p skip :
  (skip <= length (drop p all_text))%nat ->
  scanned all_text (p + skip)
    (finditer_from (drop p all_text) (Z.of_nat p) skip).
Proof.
  remember (drop p all_text) as s eqn:Hs. revert p skip Hs.
  induction s as [|c s IH]; intros p skip Hs Hskip.
  { simpl. intros i g Hi. assert (drop i all_text = []) as ->.
    { apply drop_ge. assert (length (drop p all_text) = 0%nat) as Hl
        by (by rewrite <- Hs). rewrite length_drop in Hl. lia. }
    by intros (? & _). }
  assert (Hs' : s = drop (S p) all_text).
  { replace (S p) with (p + 1)%nat by lia.
    by rewrite <- (drop_drop all_text 1 p), <- Hs. }
  simpl finditer_from. destruct skip as [|k].
  - destruct (match_here (c :: s)) as [g|] eqn:Hm.
    + pose proof (match_here_length _ _ Hm) as [Hg1 Hg2]. simpl in Hg2.
      apply match_here_spec in Hm. simpl.
      exists p, g. rewrite Nat.add_0_r.
      split; [done|]. split; [done|]. split; [by rewrite <- Hs|].
      split; [lia|]. split.
      { rewrite Hs', drop_drop. do 2 f_equal. lia. }
      split; [intros; lia|].
      replace (p + g + 4)%nat with (S p + (g + 3))%nat by lia.
      replace (Z.of_nat p + 1) with (Z.of_nat (S p)) by lia.
      apply IH; [done|lia].
    + apply scanned_extend.
      * replace (S (p + 0)) with (S p + 0)%nat by lia.
        replace (Z.of_nat p + 1) with (Z.of_nat (S p)) by lia.
        apply IH; [done|lia].
      * intros g Hg. rewrite Nat.add_0_r, <- Hs in Hg.
        apply match_here_spec in Hg. congruence.
  - replace (p + S k)%nat with (S p + k)%nat by lia.
    replace (Z.of_nat p + 1) with (Z.of_nat (S p)) by lia.
    apply IH; [done|]. simpl in Hskip. lia.
Qed.

Lemma finditer_scanned all_text : scanned all_text 0 (finditer all_text).
Proof. apply (finditer_from_scanned all_text 0 0). lia. Qed.

Lemma lstrip_spec s :
  exists pre, s = pre ++ lstrip s /\ Forall (fun c => isspace c = true) pre /\
    (forall c, head (lstrip s) = Some c -> isspace c = false).
Proof.
  induction s as [|c s (pre & Heq & Hpre & Hhd)]; simpl.
  { exists []. by repeat split. }
  destruct (isspace c) eqn:Hc.
  - exists (c :: pre). split; [by rewrite Heq at 1|]. split; [by constructor|done].
  - exists []. split; [done|]. split; [constructor|]. intros c' [= <-]. done.
Qed.

Lemma rstrip_spec s :
  exists post, s = rstrip s ++ post /\
    Forall (fun c => isspace c = true) post /\
    (forall c, last (rstrip s) = Some c -> isspace c = false).
Proof.
  unfold rstrip. destruct (lstrip_spec (reverse s)) as (pre & Heq & Hpre & Hhd).
  exists (reverse pre). split; [|split].
  - rewrite <- reverse_app, <- Heq. by rewrite reverse_involutive.
  - by apply Forall_reverse.
  - intros c Hc. apply Hhd. by rewrite last_reverse in Hc.
Qed.

Lemma strip_trimmed s : trimmed s (strip s).
Proof.
  unfold strip. destruct (lstrip_spec s) as (pre & Heq & Hpre & Hhd).
  destruct (rstrip_spec (lstrip s)) as (post & Heq' & Hpost & Hlast).
  split; [|split; [|done]].
  - exists pre, post. split; [|done]. by rewrite <- Heq', <- Heq.
  - intros c Hc. apply Hhd. rewrite Heq'.
    destruct (rstrip (lstrip s)); [done|]. done.
Qed.

Lemma commit_texts_frame {Style} tpl i nts (runs runs' : list (Run Style)) :
  PptProcessor.commit_texts tpl i nts runs = Some runs' ->
  length runs' = length runs /\ map run_style runs' = map run_style runs.
Proof.
  revert i runs. induction nts as [|nt nts IH]; intros i runs Hc; simpl in Hc.
  { by simplify_eq. }
  destruct (tpl !! i) as [item|]; simplify_eq/=.
  destruct (IH _ _ Hc) as (Hlen & Hsty). rewrite Hlen, Hsty, length_alter.
  split; [done|]. apply list_eq. intros j. rewrite !list_lookup_fmap.
  destruct (decide (j = slot_run item)) as [->|Hne].
  - rewrite list_lookup_alter_eq. by destruct (runs !! slot_run item).
  - by rewrite list_lookup_alter_ne.
Qed.

(** The reflow, when it returns, returns the same runs with the same styles,
    whatever the texts. *)
Lemma replace_paragraph_runs_frame {Value Style} (py_str : Value -> text)
    fuel context (runs runs' : list (Run Style)) :
  PptProcessor.replace_paragraph_runs py_str fuel context runs = Some runs' ->
  length runs' = length runs /\ map run_style runs' = map run_style runs.
Proof.
  unfold PptProcessor.replace_paragraph_runs.
  destruct (TemplateRenderer.cal_render_position _ _ _) as [rt [|ph pl]].
  { intros. by simplify_eq. }
  destruct (PptProcessor.placeholder_loop _ _ _ _ _ _) as [[nt cur]|];
    simpl; [|done].
  destruct (PptProcessor._copy_non_placeholder _ _ _ _ _ _) as [nt'|];
    simpl; [|done].
  apply commit_texts_frame.
Qed.

(** The resolver only sees the context through [str]. *)
Lemma cal_render_position_fmap {Value} (py_str : Value -> text) context
    all_text :
  TemplateRenderer.cal_render_position py_str context all_text
  = TemplateRenderer.cal_render_position id (py_str <$> context) all_text.
Proof.
  unfold TemplateRenderer.cal_render_position.
  assert (Hget : forall key,
    TemplateRenderer.context_get py_str context key
    = TemplateRenderer.context_get id (py_str <$> context) key).
  { intros key. unfold TemplateRenderer.context_get. rewrite lookup_fmap.
    by destruct (context !! key). }
  assert (Hloop : forall ms pl rt le,
    TemplateRenderer.render_matches py_str context all_text ms pl rt le
    = TemplateRenderer.render_matches id (py_str <$> context) all_text ms pl
        rt le).
  { induction ms as [|m ms IH]; intros pl rt le; simpl; [done|].
    by rewrite Hget, IH. }
  by rewrite Hloop.
Qed.

Lemma replace_paragraph_runs_fmap {Value Style} (py_str : Value -> text)
    fuel context (runs : list (Run Style)) :
  PptProcessor.replace_paragraph_runs py_str fuel context runs
  = PptProcessor.replace_paragraph_runs id fuel (py_str <$> context) runs.
Proof.
  unfold PptProcessor.replace_paragraph_runs.
  by rewrite cal_render_position_fmap.
Qed.

Lemma occurrence_of_elem {Value} (py_str : Value -> text) context ms pl ph :
  Forall2 (occurrence_of py_str context) ms pl -> ph ∈ pl ->
  exists m, m ∈ ms /\ occurrence_of py_str context m ph.
Proof.
  intros HF Hin. apply list_elem_of_lookup in Hin as [i Hi].
  destruct (Forall2_lookup_r _ _ _ _ _ HF Hi) as (m & Hm & Hocc).
  exists m. split; [|done]. apply list_elem_of_lookup. eauto.
Qed.

(** ** The model at work *)

Example finditer_nested :
  finditer (txt "{{a{{b}}")
  = [{| m_start := 0; m_end := 8; m_group1 := txt "a{{b" |}].
Proof. reflexivity. Qed.

Example finditer_unterminated : finditer (txt "total: {{sales") = [].
Proof. reflexivity. Qed.

Example finditer_line_feed :
  finditer ("{" :: "{" :: "a" :: newline :: "b" :: "}" :: "}" :: [])%char = [].
Proof. reflexivity. Qed.

Example render_two_placeholders :
  (TemplateRenderer.cal_render_position id
     ({[ txt "a" := txt "1"; txt "b" := txt "2" ]} : gmap text text)
     (txt "{{a}} and {{ b }}")).1 = txt "1 and 2".
Proof. by vm_compute. Qed.

Example round_share_ties :
  PptProcessor.round_share 1 2 1 = Some 0 /\
  PptProcessor.round_share 1 2 3 = Some 2 /\
  PptProcessor.round_share 1 2 5 = Some 2 /\
  PptProcessor.round_share 1 5 3 = Some 1.
Proof. by vm_compute. Qed.

Example escape_ctrl_chars_codes :
  _escape_ctrl_chars (map ascii_of_nat [0; 8; 9; 10; 11; 13; 31; 32; 95]%nat)
  = txt "_x0000__x0008_" ++ map ascii_of_nat [9; 10]%nat
    ++ txt "_x000B__x000D__x001F_ _".
Proof. reflexivity. Qed.

Example reflow_empties_run :
  PptProcessor.replace_paragraph_runs id 15 sales_context framed_runs
  = Some [ {| run_text := txt "Total "; run_style := tt |};
           {| run_text := []; run_style := tt |};
           {| run_text := txt " end"; run_style := tt |} ].
Proof. by vm_compute. Qed.

(** * The claims *)





Lemma sales_allocation_ready :
  allocation_ready (PptProcessor.build_positions (sales_runs tt tt) 0 0)
    {| original_start := 7; original_length := 9;
       rendered_start := 7; rendered_length := 5;
       placeholder := txt "sales"; rendered_value := txt "980.0" |} 7 16.
Proof.
  split; [|split; [|split; [|split; [|split]]]].
  - simpl. unfold slot_end. simpl. repeat split; by vm_compute.
  - lia.
  - by vm_compute.
  - by vm_compute.
  - reflexivity.
  - by vm_compute.
Defined.

Lemma placeholder_chain_elem lo hi pl ph :
  placeholder_chain lo hi pl -> ph ∈ pl ->
  lo <= original_start ph /\ 0 < original_length ph /\
  original_start ph + original_length ph <= hi /\
  rendered_length ph = py_len (rendered_value ph).
Proof.
  revert lo. induction pl as [|ph' pl IH]; intros lo Hchain Hin.
  { by apply elem_of_nil in Hin. }
  destruct Hchain as (H1 & H2 & H3 & Hchain).
  pose proof (placeholder_chain_le _ _ _ Hchain).
  apply elem_of_cons in Hin as [->|Hin]; [done|].
  destruct (IH _ Hchain Hin) as (? & ? & ? & ?).
  split; [lia|done].
Qed.

(** Every occurrence that the resolver finds in a paragraph is ready for
    [_allocate_rendered_value] on the slots of the paragraph. *)
Lemma paragraph_allocation_ready {Value Style} (py_str : Value -> text)
    context (runs : list (Run Style)) ph :
  small_enough py_str context (concat (map run_text runs)) ->
  ph ∈ (TemplateRenderer.cal_render_position py_str context
          (concat (map run_text runs))).2 ->
  allocation_ready (PptProcessor.build_positions runs 0 0) ph
    (original_start ph) (original_start ph + original_length ph).
Proof.
  intros Hsmall Hin.
  destruct (cal_render_position_spec py_str context
    (concat (map run_text runs))) as (pl & Heq & HF).
  rewrite Heq in Hin. simpl in Hin.
  pose proof (occurrences_chain py_str context 0 _ _ _ HF
    (finditer_chain _)) as Hchain.
  destruct (placeholder_chain_elem _ _ _ _ Hchain Hin) as (H1 & H2 & H3 & H4).
  pose proof (occurrences_small py_str context _ _ _ Hsmall HF) as Hvals.
  rewrite Forall_forall in Hvals. specialize (Hvals _ Hin).
  destruct Hsmall as (Hlen & _).
  split; [apply build_positions_contiguous|].
  rewrite build_positions_end. repeat split; try done; lia.
Qed.

(** C2.  Full value placement: whatever the split of an occurrence's span
    over the slots that tile the text, one call of
    [_allocate_rendered_value] appends to the texts portions that, joined in
    the order of the runs, are exactly the value of the occurrence.  The
    hypothesis holds for every occurrence of every paragraph
    ([paragraph_allocation_ready]). *)
Theorem full_value_placement new_texts text_position_list ph
    orig_start orig_end :
  allocation_ready text_position_list ph orig_start orig_end ->
  length new_texts = length text_position_list ->
  exists portions,
    length portions = length text_position_list /\
    PptProcessor._allocate_rendered_value new_texts text_position_list ph
      orig_start orig_end
    = Some (zip_with app new_texts portions) /\
    concat portions = rendered_value ph.
Proof.
  intros Hready Hlen.
  destruct (allocate_portions new_texts _ _ _ _ Hready Hlen)
    as (P & HP & Heq & Hcat & _).
  by exists P.
Qed.

Lemma full_value_placement_witness :
  exists portions,
    length portions = 2%nat /\
    PptProcessor._allocate_rendered_value [txt "Sales: "; []]
      (PptProcessor.build_positions (sales_runs tt tt) 0 0)
      {| original_start := 7; original_length := 9;
         rendered_start := 7; rendered_length := 5;
         placeholder := txt "sales"; rendered_value := txt "980.0" |} 7 16
    = Some (zip_with app [txt "Sales: "; []] portions) /\
    concat portions = txt "980.0".
Proof.
  apply (full_value_placement [txt "Sales: "; []]
           (PptProcessor.build_positions (sales_runs tt tt) 0 0)).
  - exact sales_allocation_ready.
  - reflexivity.
Defined.

Lemma braces_allocation_ready :
  allocation_ready (PptProcessor.build_positions braces_runs 0 0)
    braces_occurrence 0 5.
Proof.
  split; [|split; [|split; [|split; [|split]]]].
  - simpl. unfold slot_end. simpl. repeat split; by vm_compute.
  - lia.
  - by vm_compute.
  - by vm_compute.
  - reflexivity.
  - by vm_compute.
Defined.

(** C3, as amended.  Proportional distribution: one call of
    [_allocate_rendered_value] computes for every covered run the share
    [round(part_len / total_covered_len * rend_len)], a natural number, and
    appends to the runs, in order, what [distribute] gives them: every run
    but the last takes its share from the front of what is left of the
    value, or all that is left when that is shorter, and the last run takes
    what is left. *)
Theorem proportional_distribution new_texts text_position_list ph
    orig_start orig_end :
  allocation_ready text_position_list ph orig_start orig_end ->
  length new_texts = length text_position_list ->
  exists shares,
    PptProcessor.cover_loop text_position_list 0 orig_start orig_end [] 0
    = (covered_of text_position_list 0 orig_start orig_end,
       orig_end - orig_start) /\
    shares_of (covered_of text_position_list 0 orig_start orig_end)
      (orig_end - orig_start) (rendered_length ph) shares /\
    PptProcessor._allocate_rendered_value new_texts text_position_list ph
      orig_start orig_end
    = Some (apply_pieces new_texts (distribute shares (rendered_value ph))).
Proof.
  intros Hready Hlen.
  destruct (cover_loop_ready _ _ _ _ Hready) as (Hcov & _ & _).
  destruct (allocate_trace new_texts _ _ _ _ Hready Hlen)
    as (shares & Hshares & Heq).
  by exists shares.
Qed.

Lemma proportional_distribution_witness :
  exists shares,
    PptProcessor.cover_loop (PptProcessor.build_positions braces_runs 0 0)
      0 0 5 [] 0
    = (covered_of (PptProcessor.build_positions braces_runs 0 0) 0 0 5,
       5 - 0) /\
    shares_of (covered_of (PptProcessor.build_positions braces_runs 0 0) 0 0 5)
      (5 - 0) (rendered_length braces_occurrence) shares /\
    PptProcessor._allocate_rendered_value (replicate 5 [])
      (PptProcessor.build_positions braces_runs 0 0) braces_occurrence 0 5
    = Some (apply_pieces (replicate 5 [])
              (distribute shares (rendered_value braces_occurrence))).
Proof.
  apply (proportional_distribution (replicate 5 [])
           (PptProcessor.build_positions braces_runs 0 0)
           braces_occurrence 0 5).
  - exact braces_allocation_ready.
  - reflexivity.
Defined.

(** C3, as stated, fails: the value [xyz] spread over five runs that hold one
    character of the placeholder each.  Every share is [round(0.6) = 1]; the
    first three runs take the three characters, and the fourth run, which is
    not the last, receives none. *)
Lemma exact_shares_counterexample :
  (TemplateRenderer.cal_render_position id braces_context
     (concat (map run_text braces_runs))).2 = [braces_occurrence] /\
  exists covered received,
    PptProcessor.cover_loop (PptProcessor.build_positions braces_runs 0 0)
      0 0 5 [] 0 = (covered, 5) /\
    PptProcessor._allocate_rendered_value (replicate 5 [])
      (PptProcessor.build_positions braces_runs 0 0) braces_occurrence 0 5
    = Some received /\
    received = [txt "x"; txt "y"; txt "z"; []; []] /\
    ~ exact_shares covered 5 3 received.
Proof.
  split; [by vm_compute|].
  eexists _, _. split; [by vm_compute|]. split; [by vm_compute|].
  split; [done|]. intros Hexact.
  assert (Hlookup : [(0%nat, 1); (1%nat, 1); (2%nat, 1); (3%nat, 1); (4%nat, 1)]
                    !! 3%nat = Some (3%nat, 1)) by done.
  destruct (Hexact 3%nat 3%nat 1 Hlookup ltac:(simpl; lia))
    as (t & Ht & Hshare).
  simpl in Ht. injection Ht as <-. vm_compute in Hshare. discriminate.
Qed.

(** C4, as amended.  Placeholder syntax: the matches of the resolver are
    those of one scan from left to right.  Each match is two opening braces,
    a group that is not empty and holds no line feed, and the first two
    closing braces that begin after the first character of the group; no
    such substring begins between two matches or after the last one.  The
    resolver records one occurrence for each match, in order, with the span
    of the match and, as its key, the group without the whitespace at its two
    ends. *)
Theorem placeholder_syntax {Value} (py_str : Value -> text) context all_text :
  scanned all_text 0 (finditer all_text) /\
  Forall2 (fun m ph =>
             original_start ph = m_start m /\
             original_length ph = m_end m - m_start m /\
             trimmed (m_group1 m) (placeholder ph))
    (finditer all_text)
    (TemplateRenderer.cal_render_position py_str context all_text).2.
Proof.
  split; [apply finditer_scanned|].
  destruct (cal_render_position_spec py_str context all_text)
    as (pl & -> & HF).
  simpl. eapply Forall2_impl; [exact HF|].
  intros m ph (Hs & Hl & Hkey & _). split; [done|]. split; [done|].
  rewrite Hkey. apply strip_trimmed.
Qed.

(** C4, as stated, fails: with an arbitrary group closed by the first two
    closing braces after the opening ones, [{{}}] is a placeholder with an
    empty group; the pattern of the resolver does not match it. *)
Lemma placeholder_syntax_counterexample :
  finditer (txt "{{}}") = [] /\
  spec_finditer (txt "{{}}")
  = [{| m_start := 0; m_end := 4; m_group1 := [] |}] /\
  finditer (txt "{{}}") <> spec_finditer (txt "{{}}").
Proof. split; [|split]; by vm_compute. Qed.

(** C5.  Identity without placeholders: when the pattern has no match in the
    joined texts of the runs, the reflow returns the runs as they are,
    whatever the fuel. *)
Theorem no_placeholder_identity {Value Style} (py_str : Value -> text) fuel
    context (runs : list (Run Style)) :
  finditer (concat (map run_text runs)) = [] ->
  PptProcessor.replace_paragraph_runs py_str fuel context runs = Some runs.
Proof.
  intros Hnone. unfold PptProcessor.replace_paragraph_runs.
  rewrite build_positions_texts.
  destruct (cal_render_position_spec py_str context
    (concat (map run_text runs))) as (pl & -> & HF).
  rewrite Hnone in HF. by inversion HF.
Qed.

Lemma no_placeholder_identity_witness :
  PptProcessor.replace_paragraph_runs id 0 sales_context
    [ {| run_text := txt "Sales: {{sa"; run_style := tt |};
      {| run_text := txt "les} unit"; run_style := tt |} ]
  = Some [ {| run_text := txt "Sales: {{sa"; run_style := tt |};
           {| run_text := txt "les} unit"; run_style := tt |} ].
Proof.
  apply (no_placeholder_identity id 0 sales_context). by vm_compute.
Defined.

(** C6.  Frame: whenever the reflow returns, it returns as many runs as it
    was given, with the same styles in the same order.  When the resolver
    lists no occurrence it returns the runs it was given.  Otherwise, with
    enough fuel and on texts and values shorter than [2 ^ 53] characters, the
    accumulation of [new_texts] ends with one text for each run, and the
    reflow returns, at the place of each run, a run with the style of that
    run and the accumulated text as the setter stores it; a run for which the
    empty text was accumulated is there, with its style and the empty
    text. *)
Theorem reflow_frame {Value Style} (py_str : Value -> text) fuel context
    (runs : list (Run Style)) :
  (forall runs',
     PptProcessor.replace_paragraph_runs py_str fuel context runs = Some runs'
     -> length runs' = length runs /\
        map run_style runs' = map run_style runs) /\
  ((TemplateRenderer.cal_render_position py_str context
      (concat (map run_text runs))).2 = [] ->
   PptProcessor.replace_paragraph_runs py_str fuel context runs = Some runs)
  /\
  ((TemplateRenderer.cal_render_position py_str context
      (concat (map run_text runs))).2 <> [] ->
   small_enough py_str context (concat (map run_text runs)) ->
   (length (concat (map run_text runs)) <= fuel)%nat ->
   exists new_texts runs',
     accumulated_texts fuel (PptProcessor.build_positions runs 0 0)
       (concat (map run_text runs))
       (TemplateRenderer.cal_render_position py_str context
          (concat (map run_text runs))).2
     = Some new_texts /\
     PptProcessor.replace_paragraph_runs py_str fuel context runs
     = Some runs' /\
     length new_texts = length runs /\ length runs' = length runs /\
     (forall j r t,
        runs !! j = Some r -> new_texts !! j = Some t ->
        runs' !! j = Some {| run_text := _escape_ctrl_chars t;
                             run_style := run_style r |}) /\
     (forall j r,
        runs !! j = Some r -> new_texts !! j = Some [] ->
        runs' !! j = Some {| run_text := []; run_style := run_style r |})).
Proof.
  split; [|split].
  - intros runs'. apply replace_paragraph_runs_frame.
  - intros Hnone. by apply reflow_no_occurrence.
  - intros Hsome Hsmall Hfuel.
    destruct (reflow_main py_str fuel context runs Hsmall Hfuel Hsome)
      as (nts & Hacc & Hlen & Heq & _).
    exists nts, (zip_with set_run_text nts runs).
    split; [done|]. split; [done|]. split; [done|].
    split; [rewrite length_zip_with; lia|].
    assert (Hrun : forall j r t,
      runs !! j = Some r -> nts !! j = Some t ->
      zip_with set_run_text nts runs !! j
      = Some {| run_text := _escape_ctrl_chars t;
                run_style := run_style r |}).
    { intros j r t Hr Ht. by rewrite lookup_zip_with, Ht, Hr. }
    split; [done|]. intros j r Hr Ht. by rewrite (Hrun j r [] Hr Ht).
Qed.

Lemma framed_small :
  small_enough id sales_context (concat (map run_text framed_runs)).
Proof.
  split; [by vm_compute|].
  intros key v Hv. unfold sales_context in Hv.
  apply lookup_singleton_Some in Hv as [_ <-]. by vm_compute.
Defined.

Lemma reflow_frame_witness :
  exists new_texts runs',
    accumulated_texts 15 (PptProcessor.build_positions framed_runs 0 0)
      (concat (map run_text framed_runs))
      (TemplateRenderer.cal_render_position id sales_context
         (concat (map run_text framed_runs))).2
    = Some new_texts /\
    PptProcessor.replace_paragraph_runs id 15 sales_context framed_runs
    = Some runs' /\
    length new_texts = length framed_runs /\
    length runs' = length framed_runs /\
    (forall j r t,
       framed_runs !! j = Some r -> new_texts !! j = Some t ->
       runs' !! j = Some {| run_text := _escape_ctrl_chars t;
                            run_style := run_style r |}) /\
    (forall j r,
       framed_runs !! j = Some r -> new_texts !! j = Some [] ->
       runs' !! j = Some {| run_text := []; run_style := run_style r |}).
Proof.
  apply (proj2 (proj2 (reflow_frame id 15 sales_context framed_runs))).
  - by vm_compute.
  - exact framed_small.
  - vm_compute. lia.
Defined.

(** C7.  Missing key: an occurrence whose key is not in the context has the
    empty string as its value, of length zero; the resolver is a total
    function and raises nothing.  For [{{unknown}}] and the empty context the
    rendered text is empty and the span of eleven characters is consumed. *)
Theorem missing_key_renders_empty {Value} (py_str : Value -> text) context
    all_text ph :
  ph ∈ (TemplateRenderer.cal_render_position py_str context all_text).2 ->
  context !! placeholder ph = None ->
  rendered_value ph = [] /\ rendered_length ph = 0 /\
  TemplateRenderer.cal_render_position py_str ∅ (txt "{{unknown}}")
  = ([], [unknown_occurrence]).
Proof.
  intros Hin Hctx.
  destruct (cal_render_position_spec py_str context all_text)
    as (pl & Heq & HF).
  rewrite Heq in Hin. simpl in Hin.
  destruct (occurrence_of_elem _ _ _ _ _ HF Hin)
    as (m & _ & _ & _ & _ & Hv & Hl).
  unfold TemplateRenderer.context_get in Hv. rewrite Hctx in Hv.
  split; [done|]. split; [by rewrite Hl, Hv|].
  by vm_compute.
Qed.

Lemma missing_key_renders_empty_witness :
  rendered_value unknown_occurrence = [] /\
  rendered_length unknown_occurrence = 0 /\
  TemplateRenderer.cal_render_position id (∅ : gmap text text)
    (txt "{{unknown}}")
  = ([], [unknown_occurrence]).
Proof.
  apply (missing_key_renders_empty id (∅ : gmap text text)
           (txt "{{unknown}}") unknown_occurrence).
  - vm_compute. apply list_elem_of_here.
  - apply lookup_empty.
Defined.

(** C8.  The example of the specification: for the runs [Sales: {{sa] and
    [les}} unit] and a context whose value for [sales] converts to the
    string [980.0], the reflow returns the same two runs with the texts
    [Sales: 98] and [0.0 unit].  The first ends with the prefix [98] of the
    value (its share is [round(4 / 9 * 5) = 2]), the second begins with the
    rest of the value, and the two texts joined are [Sales: 980.0 unit]. *)
Theorem sales_example {Value Style} (py_str : Value -> text) (v : Value)
    (s0 s1 : Style) :
  py_str v = txt "980.0" ->
  exists before after,
    PptProcessor.replace_paragraph_runs py_str 21 {[ txt "sales" := v ]}
      (sales_runs s0 s1)
    = Some [ {| run_text := txt "Sales: " ++ before; run_style := s0 |};
             {| run_text := after ++ txt " unit"; run_style := s1 |} ] /\
    before ++ after = txt "980.0" /\
    before = txt "98" /\
    (txt "Sales: " ++ before) ++ (after ++ txt " unit")
    = txt "Sales: 980.0 unit" /\
    PptProcessor.round_share 4 9 5 = Some 2.
Proof.
  intros Hv. exists (txt "98"), (txt "0.0").
  rewrite replace_paragraph_runs_fmap, map_fmap_singleton, Hv.
  split; [by vm_compute|]. split; [done|]. split; [done|].
  split; [done|]. by vm_compute.
Qed.

Lemma sales_example_witness :
  exists before after,
    PptProcessor.replace_paragraph_runs id 21
      {[ txt "sales" := txt "980.0" ]} (sales_runs true false)
    = Some [ {| run_text := txt "Sales: " ++ before; run_style := true |};
             {| run_text := after ++ txt " unit"; run_style := false |} ] /\
    before ++ after = txt "980.0" /\
    before = txt "98" /\
    (txt "Sales: " ++ before) ++ (after ++ txt " unit")
    = txt "Sales: 980.0 unit" /\
    PptProcessor.round_share 4 9 5 = Some 2.
Proof.
  apply (sales_example id (txt "980.0") true false). reflexivity.
Defined.



(** C10.  Empty runs stay empty: under the hypotheses of C1 the reflow
    returns, and every run whose text was empty has an empty text in the
    result, with or without placeholders in the paragraph.  The copy of a gap
    never selects an empty slot ([gap_pieces_support]); an empty slot inside
    the span of an occurrence has a share of zero characters
    ([round_share_zero]) and is never the last covered run
    ([last_covered_nonzero]). *)
Theorem empty_runs_stay_empty {Value Style} (py_str : Value -> text) fuel
    context (runs : list (Run Style)) :
  small_enough py_str context (concat (map run_text runs)) ->
  (length (concat (map run_text runs)) <= fuel)%nat ->
  exists runs',
    PptProcessor.replace_paragraph_runs py_str fuel context runs = Some runs'
    /\ forall j r r',
         runs !! j = Some r -> run_text r = [] -> runs' !! j = Some r' ->
         run_text r' = [].
Proof.
  intros Hsmall Hfuel.
  destruct (TemplateRenderer.cal_render_position py_str context
    (concat (map run_text runs))).2 as [|ph pl] eqn:Hpl.
  { destruct (reflow_no_occurrence py_str fuel context runs Hpl)
      as [Heq _].
    exists runs. split; [done|]. intros j r r' Hr Hnil Hr'. by simplify_eq. }
  destruct (reflow_main py_str fuel context runs Hsmall Hfuel)
    as (nts & _ & Hlen & Heq & _ & Hempty).
  { by rewrite Hpl. }
  eexists. split; [done|]. intros j r r' Hr Hnil Hr'.
  apply lookup_zip_with_Some in Hr' as (t & r0 & -> & Ht & Hr0).
  simpl. by rewrite (Hempty j r t).
Qed.

Lemma empty_runs_stay_empty_witness :
  exists runs',
    PptProcessor.replace_paragraph_runs id 7 braces_context gapped_runs
    = Some runs'
    /\ forall j r r',
         gapped_runs !! j = Some r -> run_text r = [] ->
         runs' !! j = Some r' -> run_text r' = [].
Proof.
  apply (empty_runs_stay_empty id 7 braces_context gapped_runs).
  - split; [by vm_compute|].
    intros key v Hv. unfold braces_context in Hv.
    apply lookup_singleton_Some in Hv as [_ <-]. by vm_compute.
  - vm_compute. lia.
Defined.

(** * Further properties of the code *)

(** ** The resolver *)

Lemma py_slice_middle {A} (pre v post : list A) :
  py_slice (pre ++ v ++ post) (py_len pre) (py_len pre + py_len v) = v.
Proof.
  rewrite py_slice_take_drop by apply py_len_nonneg.
  unfold py_len. rewrite !Nat2Z.id, drop_app_length. apply take_app_length.
Qed.

Lemma render_matches_spans {Value} (py_str : Value -> text) context all_text
    ms pl0 rt0 le :
  exists pl ext,
    (TemplateRenderer.render_matches py_str context all_text ms pl0 rt0
       le).1.1 = pl0 ++ pl /\
    (TemplateRenderer.render_matches py_str context all_text ms pl0 rt0
       le).1.2 = rt0 ++ ext /\
    forall ph, ph ∈ pl ->
      exists pre post,
        rt0 ++ ext = pre ++ rendered_value ph ++ post /\
        rendered_start ph = py_len pre /\
        rendered_length ph = py_len (rendered_value ph).
Proof.
  revert pl0 rt0 le. induction ms as [|m ms IH]; intros pl0 rt0 le.
  { exists [], []. simpl. rewrite !app_nil_r. split; [done|]. split; [done|].
    by intros ph ?%elem_of_nil. }
  simpl TemplateRenderer.render_matches.
  set (gap := py_slice all_text le (m_start m)).
  set (value := TemplateRenderer.context_get py_str context
                  (strip (m_group1 m))).
  set (ph0 := {| original_start := m_start m;
                 original_length := m_end m - m_start m;
                 rendered_start := py_len (rt0 ++ gap);
                 rendered_length := py_len value;
                 placeholder := strip (m_group1 m);
                 rendered_value := value |}).
  destruct (IH (pl0 ++ [ph0]) ((rt0 ++ gap) ++ value) (m_end m))
    as (pl & ext & -> & -> & Hspans).
  exists (ph0 :: pl), (gap ++ value ++ ext).
  split; [by rewrite <- app_assoc|]. split; [by rewrite <- !app_assoc|].
  intros ph [->|Hin]%elem_of_cons.
  - exists (rt0 ++ gap), ext. simpl. by rewrite <- !app_assoc.
  - destruct (Hspans ph Hin) as (pre & post & Heq & Hs & Hl).
    exists pre, post. rewrite <- Heq. by rewrite <- !app_assoc.
Qed.

(** X1.  The rendered text is the source text with every match replaced by
    its value: the text from the end of the match before (or from the start)
    up to the match, copied as it is, then the value, and after the last
    match the rest of the text.  There is one occurrence for each match, in
    order, with the span of the match, the trimmed group as its key and the
    value that the context gives to the key. *)
Theorem resolver_splices {Value} (py_str : Value -> text) context all_text :
  (TemplateRenderer.cal_render_position py_str context all_text).1
  = splice all_text
      (TemplateRenderer.cal_render_position py_str context all_text).2 0 /\
  Forall2 (occurrence_of py_str context) (finditer all_text)
    (TemplateRenderer.cal_render_position py_str context all_text).2.
Proof.
  destruct (cal_render_position_spec py_str context all_text)
    as (pl & -> & HF).
  done.
Qed.

(** X2.  The alignment table is right on the rendered side: in the rendered
    text, the span that an occurrence records ([rendered_start],
    [rendered_length]) holds exactly the value of the occurrence. *)
Theorem rendered_span_holds_value {Value} (py_str : Value -> text) context
    all_text ph :
  ph ∈ (TemplateRenderer.cal_render_position py_str context all_text).2 ->
  py_slice (TemplateRenderer.cal_render_position py_str context all_text).1
    (rendered_start ph) (rendered_start ph + rendered_length ph)
  = rendered_value ph.
Proof.
  unfold TemplateRenderer.cal_render_position.
  destruct (render_matches_spans py_str context all_text (finditer all_text)
    [] [] 0) as (pl & ext & Hpl & Hrt & Hspans).
  destruct (TemplateRenderer.render_matches _ _ _ _ _ _ _)
    as [[pl' rt] le']. simpl in *. subst pl' rt.
  intros Hin. destruct (Hspans ph Hin) as (pre & post & -> & -> & ->).
  rewrite <- !app_assoc. apply py_slice_middle.
Qed.

Lemma rendered_span_holds_value_witness :
  py_slice (TemplateRenderer.cal_render_position id sales_context
              (txt "Sales: {{ sales }} unit")).1
    7 (7 + 5)
  = txt "980.0".
Proof.
  apply (rendered_span_holds_value id sales_context
    (txt "Sales: {{ sales }} unit")
    {| original_start := 7; original_length := 11;
       rendered_start := 7; rendered_length := 5;
       placeholder := txt "sales"; rendered_value := txt "980.0" |}).
  vm_compute. apply list_elem_of_here.
Defined.

Lemma scanned_elem all_text lo ms m :
  scanned all_text lo ms -> m ∈ ms ->
  exists i g,
    m_start m = Z.of_nat i /\ placeholder_at (drop i all_text) g /\
    m_end m = Z.of_nat (i + g + 4) /\
    m_group1 m = take g (drop (i + 2) all_text).
Proof.
  revert lo. induction ms as [|m' ms IH]; intros lo Hsc Hin.
  { by apply elem_of_nil in Hin. }
  destruct Hsc as (i & g & H1 & _ & H3 & H4 & H5 & _ & Hrest).
  apply elem_of_cons in Hin as [->|Hin]; [by exists i, g|].
  by apply (IH _ Hrest).
Qed.

Lemma placeholder_at_token s g :
  placeholder_at s g ->
  take (g + 4) s = lbrace :: lbrace :: take g (drop 2 s) ++ [rbrace; rbrace].
Proof.
  intros (H0 & H1 & _ & _ & [Hc1 Hc2] & _).
  destruct s as [|c0 [|c1 s]]; simplify_eq/=.
  replace (g + 4)%nat with (S (S (S (S g)))) by lia. simpl. do 2 f_equal.
  rewrite (take_S_r s (S g) rbrace) by done.
  rewrite (take_S_r s g rbrace) by done.
  by rewrite <- app_assoc.
Qed.

Lemma placeholder_at_group s g :
  placeholder_at s g ->
  take g (drop 2 s) <> [] /\ newline ∉ take g (drop 2 s).
Proof.
  intros (_ & _ & Hg & Hnonl & [Hc1 _] & _). split.
  - intros Hnil. apply (f_equal length) in Hnil.
    rewrite length_take, length_drop in Hnil. simpl in Hnil.
    apply lookup_lt_Some in Hc1. lia.
  - intros Hin. apply list_elem_of_lookup in Hin as [j Hj].
    apply lookup_take_Some in Hj as [Hj Hlt]. rewrite lookup_drop in Hj.
    by apply (Hnonl (2 + j)%nat newline ltac:(lia) Hj).
Qed.

(** X3.  The alignment table is right on the source side: in the source
    text, the span that an occurrence records ([original_start],
    [original_length]) holds two opening braces, a group and two closing
    braces; the group is not empty, holds no line feed, and the key of the
    occurrence is the group without the whitespace at its ends. *)
Theorem original_span_holds_token {Value} (py_str : Value -> text) context
    all_text ph :
  ph ∈ (TemplateRenderer.cal_render_position py_str context all_text).2 ->
  exists group,
    py_slice all_text (original_start ph)
      (original_start ph + original_length ph)
    = lbrace :: lbrace :: group ++ [rbrace; rbrace] /\
    group <> [] /\ (newline ∉ group) /\ trimmed group (placeholder ph).
Proof.
  intros Hin.
  destruct (cal_render_position_spec py_str context all_text)
    as (pl & Heq & HF).
  rewrite Heq in Hin. simpl in Hin.
  destruct (occurrence_of_elem _ _ _ _ _ HF Hin)
    as (m & Hm & Hs & Hl & Hkey & _).
  destruct (scanned_elem _ _ _ _ (finditer_scanned all_text) Hm)
    as (i & g & Hi & Hat & Hend & Hgroup).
  exists (m_group1 m). rewrite Hs, Hl, Hi, Hend, Hkey.
  replace (Z.of_nat i + (Z.of_nat (i + g + 4) - Z.of_nat i))
    with (Z.of_nat i + Z.of_nat (g + 4)) by lia.
  rewrite py_slice_take_drop by lia. rewrite !Nat2Z.id.
  rewrite (placeholder_at_token _ _ Hat), Hgroup, drop_drop.
  split; [done|].
  destruct (placeholder_at_group _ _ Hat) as (Hne & Hnl).
  rewrite drop_drop in Hne, Hnl.
  split; [done|]. split; [done|]. apply strip_trimmed.
Qed.

Lemma original_span_holds_token_witness :
  exists group,
    py_slice (txt "Sales: {{ sales }} unit") 7 (7 + 11)
    = lbrace :: lbrace :: group ++ [rbrace; rbrace] /\
    group <> [] /\ (newline ∉ group) /\ trimmed group (txt "sales").
Proof.
  apply (original_span_holds_token id sales_context
    (txt "Sales: {{ sales }} unit")
    {| original_start := 7; original_length := 11;
       rendered_start := 7; rendered_length := 5;
       placeholder := txt "sales"; rendered_value := txt "980.0" |}).
  vm_compute. apply list_elem_of_here.
Defined.

Lemma match_chain_lookup lo hi ms :
  match_chain lo hi ms ->
  (forall m, m ∈ ms ->
     lo <= m_start m /\ m_start m + 5 <= m_end m /\ m_end m <= hi) /\
  (forall i j a b, (i < j)%nat -> ms !! i = Some a -> ms !! j = Some b ->
     m_end a <= m_start b).
Proof.
  revert lo. induction ms as [|m ms IH]; intros lo Hchain.
  { split; [by intros m ?%elem_of_nil | by intros i j a b _ ?]. }
  destruct Hchain as (H1 & H2 & Hchain).
  destruct (IH _ Hchain) as (Helem & Hord). split.
  - intros m' [->|Hin]%elem_of_cons.
    + split; [done|]. split; [done|].
      destruct ms as [|m1 ms]; simpl in Hchain; [done|].
      destruct (Helem m1) as (? & ? & ?); [apply list_elem_of_here|lia].
    + destruct (Helem _ Hin) as (? & ? & ?). lia.
  - intros i j a b Hij Ha Hb. destruct j as [|j]; [lia|]. simpl in Hb.
    destruct i as [|i]; simpl in Ha.
    + simplify_eq. destruct (Helem b) as (? & _).
      { apply list_elem_of_lookup. eauto. }
      done.
    + apply (Hord i j); [lia|done..].
Qed.

(** X4.  The occurrences are listed in ascending order and do not overlap:
    each lies inside the text and spans at least five characters, and an
    occurrence begins at or after the end of every occurrence listed before
    it. *)
Theorem occurrences_ordered {Value} (py_str : Value -> text) context
    all_text :
  (forall ph,
     ph ∈ (TemplateRenderer.cal_render_position py_str context all_text).2 ->
     0 <= original_start ph /\ 5 <= original_length ph /\
     original_start ph + original_length ph <= py_len all_text) /\
  (forall i j a b, (i < j)%nat ->
     (TemplateRenderer.cal_render_position py_str context all_text).2 !! i
     = Some a ->
     (TemplateRenderer.cal_render_position py_str context all_text).2 !! j
     = Some b ->
     original_start a + original_length a <= original_start b).
Proof.
  destruct (cal_render_position_spec py_str context all_text)
    as (pl & -> & HF). simpl.
  destruct (match_chain_lookup _ _ _ (finditer_chain all_text))
    as (Helem & Hord).
  split.
  - intros ph Hin.
    destruct (occurrence_of_elem _ _ _ _ _ HF Hin) as (m & Hm & Hs & Hl & _).
    destruct (Helem m Hm) as (? & ? & ?). lia.
  - intros i j a b Hij Ha Hb.
    destruct (Forall2_lookup_r _ _ _ _ _ HF Ha) as (ma & Hma & Hsa & Hla & _).
    destruct (Forall2_lookup_r _ _ _ _ _ HF Hb) as (mb & Hmb & Hsb & _).
    pose proof (Hord i j ma mb Hij Hma Hmb). lia.
Qed.

Lemma resolver_no_match {Value} (py_str : Value -> text) context all_text :
  finditer all_text = [] ->
  TemplateRenderer.cal_render_position py_str context all_text
  = (all_text, []).
Proof.
  intros Hnone. unfold TemplateRenderer.cal_render_position.
  rewrite Hnone. simpl. by rewrite py_slice_all.
Qed.

Lemma match_here_needs_brace c s : c <> lbrace -> match_here (c :: s) = None.
Proof.
  intros Hc. unfold match_here. destruct s as [|c2 [|c3 s]]; try done.
  by rewrite (proj2 (is_char_false lbrace c) Hc).
Qed.

Lemma finditer_from_no_brace s pos : lbrace ∉ s -> finditer_from s pos 0 = [].
Proof.
  revert pos. induction s as [|c s IH]; intros pos Hno; [done|].
  simpl. rewrite match_here_needs_brace.
  - apply IH. intros Hin. apply Hno. by apply elem_of_cons; right.
  - intros ->. apply Hno. apply list_elem_of_here.
Qed.

(** X5.  A text without an opening brace is rendered as it is, with no
    occurrence, whatever the context. *)
Theorem no_brace_identity {Value} (py_str : Value -> text) context all_text :
  lbrace ∉ all_text ->
  TemplateRenderer.cal_render_position py_str context all_text
  = (all_text, []).
Proof.
  intros Hno. apply resolver_no_match. by apply finditer_from_no_brace.
Qed.

Lemma no_brace_identity_witness :
  TemplateRenderer.cal_render_position id sales_context (txt "sales}} 980")
  = (txt "sales}} 980", []).
Proof.
  apply (no_brace_identity id sales_context (txt "sales}} 980")).
  intros Hin. vm_compute in Hin.
  repeat (apply elem_of_cons in Hin as [Hin|Hin]; [discriminate Hin|]).
  by apply elem_of_nil in Hin.
Defined.

Lemma py_len_slice {A} (s : list A) a b :
  0 <= a <= b -> b <= py_len s -> py_len (py_slice s a b) = b - a.
Proof.
  intros Hab Hb. rewrite py_slice_nonneg by lia. unfold py_len in *.
  rewrite length_take, length_drop. lia.
Qed.

Lemma py_len_slice_from {A} (s : list A) a :
  0 <= a <= py_len s -> py_len (py_slice_from s a) = py_len s - a.
Proof.
  intros Ha. rewrite py_slice_from_nonneg by lia. unfold py_len in *.
  rewrite length_drop. lia.
Qed.

Lemma splice_length all_text pl cur :
  placeholder_chain cur (py_len all_text) pl -> 0 <= cur ->
  py_len (splice all_text pl cur)
  = py_len all_text - cur - sum_Z (map original_length pl)
    + sum_Z (map rendered_length pl).
Proof.
  revert cur. induction pl as [|ph pl IH]; intros cur Hchain Hcur; simpl.
  - simpl in Hchain. rewrite py_len_slice_from by lia. unfold sum_Z. simpl. lia.
  - destruct Hchain as (H1 & H2 & H3 & Hchain).
    pose proof (placeholder_chain_le _ _ _ Hchain).
    rewrite !py_len_app, IH, py_len_slice by (done || lia).
    unfold sum_Z. simpl. fold (sum_Z (map original_length pl)).
    fold (sum_Z (map rendered_length pl)). rewrite H3. lia.
Qed.

(** X6.  The length of the rendered text is the length of the source text,
    less the lengths of the spans of the occurrences, plus the lengths of
    their values. *)
Theorem rendered_length_formula {Value} (py_str : Value -> text) context
    all_text :
  py_len (TemplateRenderer.cal_render_position py_str context all_text).1
  = py_len all_text
    - sum_Z (map original_length
               (TemplateRenderer.cal_render_position py_str context
                  all_text).2)
    + sum_Z (map rendered_length
               (TemplateRenderer.cal_render_position py_str context
                  all_text).2).
Proof.
  destruct (cal_render_position_spec py_str context all_text)
    as (pl & -> & HF). simpl.
  rewrite splice_length; [lia| |lia].
  apply (occurrences_chain py_str context 0 _ _ _ HF).
  apply finditer_chain.
Qed.

Lemma render_matches_agree {Value} (py_str : Value -> text) c1 c2 all_text
    ms pl rt le :
  (forall m, m ∈ ms ->
     c1 !! strip (m_group1 m) = c2 !! strip (m_group1 m)) ->
  TemplateRenderer.render_matches py_str c1 all_text ms pl rt le
  = TemplateRenderer.render_matches py_str c2 all_text ms pl rt le.
Proof.
  revert pl rt le. induction ms as [|m ms IH]; intros pl rt le Hagree; [done|].
  simpl. unfold TemplateRenderer.context_get.
  rewrite (Hagree m) by apply list_elem_of_here.
  apply IH. intros m' Hm'. apply Hagree. by apply elem_of_cons; right.
Qed.

(** X7.  The resolver reads the context only at the keys of the matches:
    two contexts that agree on the trimmed group of every match of the text
    give the same rendered text and the same occurrences. *)
Theorem resolver_reads_only_keys {Value} (py_str : Value -> text)
    (context context' : gmap text Value) all_text :
  (forall m, m ∈ finditer all_text ->
     context !! strip (m_group1 m) = context' !! strip (m_group1 m)) ->
  TemplateRenderer.cal_render_position py_str context all_text
  = TemplateRenderer.cal_render_position py_str context' all_text.
Proof.
  intros Hagree. unfold TemplateRenderer.cal_render_position.
  by rewrite (render_matches_agree py_str context context').
Qed.

Lemma resolver_reads_only_keys_witness :
  TemplateRenderer.cal_render_position id sales_context
    (txt "Sales: {{ sales }} unit")
  = TemplateRenderer.cal_render_position id
      (<[ txt "growth" := txt "18.98" ]> sales_context)
      (txt "Sales: {{ sales }} unit").
Proof.
  apply (resolver_reads_only_keys id sales_context
           (<[ txt "growth" := txt "18.98" ]> sales_context)
           (txt "Sales: {{ sales }} unit")).
  intros m Hm. vm_compute in Hm.
  apply elem_of_cons in Hm as [->|Hm]; [by vm_compute|].
  by apply elem_of_nil in Hm.
Defined.

(** ** Copying and allocating *)

(** X8.  When no slot holds the position at which a copy must start, the
    [for] loop of [_copy_non_placeholder] finds nothing, the position does
    not move, and the [while] loop never ends: no amount of fuel gives a
    result. *)
Theorem copy_outside_slots_never_ends fuel new_texts text_position_list
    all_text start end_ :
  (forall pos, pos ∈ text_position_list ->
     ~ (slot_start pos <= start < slot_end pos)) ->
  start < end_ ->
  PptProcessor._copy_non_placeholder fuel new_texts text_position_list
    all_text start end_ = None.
Proof.
  intros Hnone Hlt. unfold PptProcessor._copy_non_placeholder.
  assert (Hfind : PptProcessor.find_run text_position_list start = None).
  { apply list_find_None, Forall_forall. exact Hnone. }
  induction fuel as [|fuel IH]; simpl;
    rewrite (proj2 (Z.ltb_lt _ _) Hlt); [done|].
  by rewrite Hfind.
Qed.

Lemma copy_outside_slots_never_ends_witness :
  PptProcessor._copy_non_placeholder 1000 [[]; []] stray_positions
    (txt "abcdefgh") 6 8 = None.
Proof.
  apply (copy_outside_slots_never_ends 1000 [[]; []] stray_positions
           (txt "abcdefgh") 6 8); [|lia].
  intros pos Hin. unfold stray_positions in Hin.
  apply elem_of_cons in Hin as [->|Hin]; [unfold slot_end; simpl; lia|].
  apply list_elem_of_singleton in Hin as ->. unfold slot_end. simpl. lia.
Defined.

(** X9.  On slots that tile the text, a copy of the span from [start] to
    [end_] returns with fuel for one pass per character; it appends to the
    text of each run the characters of the span that lie in the slot of the
    run, and nothing to the others. *)
Theorem copy_places_by_slot fuel new_texts text_position_list all_text
    start end_ :
  contiguous 0 text_position_list ->
  0 <= start <= end_ -> end_ <= slots_end 0 text_position_list ->
  length new_texts = length text_position_list ->
  (Z.to_nat (end_ - start) <= fuel)%nat ->
  PptProcessor._copy_non_placeholder fuel new_texts text_position_list
    all_text start end_
  = Some (zip_with app new_texts
            (map (fun pos =>
                    py_slice all_text (Z.max start (slot_start pos))
                      (Z.min end_ (slot_end pos)))
               text_position_list)).
Proof. intros. by apply copy_loop_spec. Qed.

Lemma copy_places_by_slot_witness :
  PptProcessor._copy_non_placeholder 7 [[]; []]
    (PptProcessor.build_positions (sales_runs tt tt) 0 0)
    (txt "Sales: {{sales}} unit") 0 7
  = Some (zip_with app [[]; []]
            (map (fun pos =>
                    py_slice (txt "Sales: {{sales}} unit")
                      (Z.max 0 (slot_start pos)) (Z.min 7 (slot_end pos)))
               (PptProcessor.build_positions (sales_runs tt tt) 0 0))).
Proof.
  apply (copy_places_by_slot 7 [[]; []]
           (PptProcessor.build_positions (sales_runs tt tt) 0 0)
           (txt "Sales: {{sales}} unit") 0 7).
  - apply build_positions_contiguous.
  - lia.
  - by vm_compute.
  - reflexivity.
  - vm_compute. lia.
Defined.

Lemma build_positions_slices {Style} (runs : list (Run Style)) i pre suf :
  map (fun pos =>
         py_slice (pre ++ concat (map run_text runs) ++ suf)
           (slot_start pos) (slot_end pos))
    (PptProcessor.build_positions runs i (py_len pre))
  = map run_text runs.
Proof.
  revert i pre. induction runs as [|r runs IH]; intros i pre; [done|].
  simpl. f_equal.
  - unfold slot_end. simpl. rewrite <- !app_assoc. apply py_slice_middle.
  - specialize (IH (S i) (pre ++ run_text r)).
    rewrite py_len_app in IH. etrans; [|exact IH].
    by rewrite <- !app_assoc.
Qed.

Lemma build_positions_slice {Style} (runs : list (Run Style)) j pos r :
  PptProcessor.build_positions runs 0 0 !! j = Some pos ->
  runs !! j = Some r ->
  py_slice (concat (map run_text runs)) (slot_start pos) (slot_end pos)
  = run_text r.
Proof.
  intros Hpos Hr.
  pose proof (build_positions_slices runs 0 [] []) as Hmap.
  rewrite app_nil_r in Hmap. simpl in Hmap.
  apply (f_equal (fun l => l !! j)) in Hmap.
  rewrite !list_lookup_fmap in Hmap.
  change (py_len []) with 0 in Hmap. rewrite Hpos, Hr in Hmap.
  by simplify_eq/=.
Qed.

(** X10.  Flattening and copying back is the identity: copying the whole
    joined text of a paragraph into empty texts, along the slots of the
    paragraph, gives back the texts of the runs. *)
Theorem copy_whole_text_round_trip {Style} fuel (runs : list (Run Style)) :
  (length (concat (map run_text runs)) <= fuel)%nat ->
  PptProcessor._copy_non_placeholder fuel (replicate (length runs) [])
    (PptProcessor.build_positions runs 0 0) (concat (map run_text runs))
    0 (py_len (concat (map run_text runs)))
  = Some (map run_text runs).
Proof.
  intros Hfuel. unfold PptProcessor._copy_non_placeholder.
  set (all_text := concat (map run_text runs)) in *.
  set (tpl := PptProcessor.build_positions runs 0 0).
  assert (Hc : contiguous 0 tpl) by apply build_positions_contiguous.
  assert (Hend : slots_end 0 tpl = py_len all_text).
  { unfold tpl. rewrite build_positions_end. fold all_text. lia. }
  pose proof (py_len_nonneg all_text).
  rewrite copy_loop_spec; [|done|lia|lia| |].
  2: { unfold tpl. by rewrite length_replicate, build_positions_length. }
  2: { unfold py_len in *. lia. }
  f_equal. apply list_eq. intros j.
  rewrite lookup_zip_with, gap_pieces_lookup, list_lookup_fmap.
  destruct (tpl !! j) as [pos|] eqn:Hpos; simpl.
  - destruct (build_positions_lookup _ _ _ _ _ Hpos) as (_ & r & Hr & _).
    destruct (contiguous_lookup _ _ _ _ Hc Hpos) as (H1 & H2 & H3).
    rewrite Hr. simpl.
    rewrite (proj2 (lookup_replicate (length runs) ([] : text) [] j)).
    2: { split; [done|]. by eapply lookup_lt_Some. }
    simpl. f_equal.
    rewrite Z.max_r, Z.min_r by lia.
    by apply (build_positions_slice runs j).
  - apply lookup_ge_None in Hpos. unfold tpl in Hpos.
    rewrite build_positions_length in Hpos.
    rewrite (proj2 (lookup_ge_None runs j)) by done.
    by destruct (replicate (length runs) [] !! j).
Qed.

Lemma copy_whole_text_round_trip_witness :
  PptProcessor._copy_non_placeholder 21 (replicate 2 [])
    (PptProcessor.build_positions (sales_runs tt tt) 0 0)
    (concat (map run_text (sales_runs tt tt)))
    0 (py_len (concat (map run_text (sales_runs tt tt))))
  = Some (map run_text (sales_runs tt tt)).
Proof.
  apply (copy_whole_text_round_trip 21 (sales_runs tt tt)).
  vm_compute. lia.
Defined.

(** X11.  For an occurrence that the resolver finds in a paragraph, the
    overlaps with the slots of the paragraph add up to the length of its
    span, which is not zero: [_allocate_rendered_value] never takes its
    early return on the occurrences of [replace_paragraph_runs]. *)
Theorem covered_length_is_span {Value Style} (py_str : Value -> text)
    context (runs : list (Run Style)) ph :
  ph ∈ (TemplateRenderer.cal_render_position py_str context
          (concat (map run_text runs))).2 ->
  (PptProcessor.cover_loop (PptProcessor.build_positions runs 0 0) 0
     (original_start ph) (original_start ph + original_length ph) [] 0).2
  = original_length ph /\
  0 < original_length ph.
Proof.
  intros Hin.
  destruct (cal_render_position_spec py_str context
    (concat (map run_text runs))) as (pl & Heq & HF).
  rewrite Heq in Hin. simpl in Hin.
  pose proof (occurrences_chain py_str context 0 _ _ _ HF
    (finditer_chain _)) as Hchain.
  destruct (placeholder_chain_elem _ _ _ _ Hchain Hin) as (H1 & H2 & H3 & _).
  split; [|done]. rewrite cover_loop_eq. simpl.
  rewrite (covered_of_sum 0) by (apply build_positions_contiguous || lia).
  rewrite build_positions_end. lia.
Qed.

Lemma covered_length_is_span_witness :
  (PptProcessor.cover_loop
     (PptProcessor.build_positions braces_runs 0 0) 0 0 (0 + 5) [] 0).2 = 5
  /\ 0 < 5.
Proof.
  apply (covered_length_is_span id braces_context braces_runs
           braces_occurrence).
  vm_compute. apply list_elem_of_here.
Defined.

Lemma covered_of_after start tpl idx os oe :
  contiguous start tpl -> oe <= start -> covered_of tpl idx os oe = [].
Proof.
  revert start idx. induction tpl as [|p tpl IH]; intros start idx Hc Hoe;
    [done|].
  destruct Hc as (Hs & Hl & Hc). simpl.
  rewrite (proj2 (Z.ltb_ge (slot_start p) oe)) by lia.
  rewrite andb_false_r. simpl. apply (IH (slot_end p)); [done|].
  unfold slot_end. lia.
Qed.

Lemma covered_of_single start tpl idx os oe j pos :
  contiguous start tpl -> tpl !! j = Some pos ->
  slot_start pos <= os -> os < oe -> oe <= slot_end pos ->
  covered_of tpl idx os oe = [((idx + j)%nat, oe - os)].
Proof.
  revert start idx j. induction tpl as [|p tpl IH];
    intros start idx j Hc Hj Hs Hlt He; [done|].
  pose proof Hc as (Hps & Hpl & Hc'). destruct j as [|j]; simpl in Hj.
  - simplify_eq. simpl.
    rewrite (proj2 (Z.ltb_lt os (slot_end pos))) by lia.
    rewrite (proj2 (Z.ltb_lt (slot_start pos) oe)) by lia. simpl.
    rewrite (covered_of_after (slot_end pos)) by done.
    rewrite Nat.add_0_r. do 2 f_equal. lia.
  - pose proof (contiguous_mono start (p :: tpl) 0 (S j) p pos Hc
      ltac:(lia) eq_refl Hj) as Hmono.
    simpl. rewrite (proj2 (Z.ltb_ge os (slot_end p))) by lia. simpl.
    rewrite (IH (slot_end p) (S idx) j) by done.
    do 2 f_equal. lia.
Qed.

(** X12.  A placeholder inside one run goes to that run: when the span of
    an occurrence lies in the slot of one run, [_allocate_rendered_value]
    appends the whole value to the text of that run and leaves every other
    text as it is, whatever the lengths. *)
Theorem single_run_placement new_texts text_position_list ph orig_start
    orig_end j pos :
  contiguous 0 text_position_list ->
  text_position_list !! j = Some pos ->
  slot_start pos <= orig_start -> orig_start < orig_end ->
  orig_end <= slot_end pos ->
  rendered_length ph = py_len (rendered_value ph) ->
  (j < length new_texts)%nat ->
  PptProcessor._allocate_rendered_value new_texts text_position_list ph
    orig_start orig_end
  = Some (append_piece j (rendered_value ph) new_texts).
Proof.
  intros Hc Hj Hs Hlt He Hlen Hjlt.
  unfold PptProcessor._allocate_rendered_value.
  rewrite cover_loop_eq, (covered_of_single 0 _ 0 _ _ j pos) by done.
  simpl. unfold sum_Z. simpl.
  destruct (decide (0 + (orig_end - orig_start + 0) = 0)) as [|_]; [lia|].
  unfold py_truediv.
  destruct (decide (0 + (orig_end - orig_start + 0) = 0)) as [|_]; [lia|].
  simpl. rewrite append_at_Some by done. simpl. do 2 f_equal.
  rewrite Hlen. replace (0 + (py_len (rendered_value ph) - 0))
    with (py_len (rendered_value ph)) by lia.
  rewrite py_slice_to_end by lia. apply py_slice_all.
Qed.

Lemma single_run_placement_witness :
  PptProcessor._allocate_rendered_value [txt "Sales: "; []]
    (PptProcessor.build_positions (sales_runs tt tt) 0 0)
    braces_occurrence 11 16
  = Some (append_piece 1 (rendered_value braces_occurrence)
            [txt "Sales: "; []]).
Proof.
  apply (single_run_placement [txt "Sales: "; []]
           (PptProcessor.build_positions (sales_runs tt tt) 0 0)
           braces_occurrence 11 16 1
           {| slot_start := 11; slot_len := 10; slot_run := 1 |}).
  - apply build_positions_contiguous.
  - reflexivity.
  - simpl. lia.
  - lia.
  - unfold slot_end. simpl. lia.
  - reflexivity.
  - simpl. lia.
Defined.

(** ** Runs away from the placeholders *)

Lemma slot_content_step all_text pos a b :
  0 <= slot_start pos -> 0 <= slot_len pos -> 0 <= a <= b ->
  slot_content all_text pos a
  ++ py_slice all_text (Z.max a (slot_start pos)) (Z.min b (slot_end pos))
  = slot_content all_text pos b.
Proof.
  intros Hs Hl Hab. unfold slot_content, slot_end.
  destruct (decide (slot_start pos + slot_len pos <= a)).
  { rewrite (py_slice_empty _ (Z.max a _)) by lia. rewrite app_nil_r.
    f_equal. lia. }
  destruct (decide (b <= slot_start pos)).
  { rewrite (py_slice_empty _ (Z.max a _)) by lia. rewrite app_nil_r.
    f_equal. lia. }
  replace (Z.min (Z.max a (slot_start pos)) (slot_start pos + slot_len pos))
    with (Z.max a (slot_start pos)) by lia.
  rewrite py_slice_join by lia. f_equal. lia.
Qed.

Lemma slot_content_outside all_text pos os oe :
  0 <= slot_len pos -> os <= oe ->
  slot_end pos <= os \/ oe <= slot_start pos ->
  slot_content all_text pos os = slot_content all_text pos oe.
Proof.
  intros Hl Hle Hout. unfold slot_content, slot_end in *. f_equal. lia.
Qed.

Lemma placeholder_loop_outside fuel tpl all_text pl nt cur j pos :
  contiguous 0 tpl -> slots_end 0 tpl = py_len all_text ->
  py_len all_text < 2 ^ 53 ->
  Forall (fun ph => py_len (rendered_value ph) < 2 ^ 53) pl ->
  (length all_text <= fuel)%nat ->
  tpl !! j = Some pos -> Forall (outside_span pos) pl ->
  placeholder_chain cur (py_len all_text) pl -> 0 <= cur ->
  length nt = length tpl ->
  nt !! j = Some (slot_content all_text pos cur) ->
  exists nt' cur',
    PptProcessor.placeholder_loop fuel tpl all_text pl nt cur
    = Some (nt', cur') /\
    length nt' = length tpl /\ cur <= cur' <= py_len all_text /\
    nt' !! j = Some (slot_content all_text pos cur').
Proof.
  intros Hc Hend Hsmall Hvals Hfuel Hpos Hout.
  destruct (contiguous_lookup _ _ _ _ Hc Hpos) as (Hs0 & Hl0 & _).
  revert nt cur Hout.
  induction Hvals as [|ph pl Hv Hvals IH]; intros nt cur Hout Hchain Hcur
    Hlen Hj.
  { simpl in *. exists nt, cur. split; [done|]. split; [done|].
    split; [lia|done]. }
  destruct Hchain as (Hos & Hol & Hrl & Hchain).
  pose proof (placeholder_chain_le _ _ _ Hchain) as Hoe.
  apply Forall_cons in Hout as [Hout1 Hout].
  simpl PptProcessor.placeholder_loop.
  unfold PptProcessor._copy_non_placeholder.
  rewrite copy_loop_spec; [|done|lia|lia|done|unfold py_len in *; lia].
  simpl.
  set (nt1 := zip_with app nt
                (gap_pieces all_text tpl cur (original_start ph))).
  assert (Hlen1 : length nt1 = length tpl).
  { unfold nt1. rewrite length_zip_with, gap_pieces_length. lia. }
  assert (Hj1 : nt1 !! j
                = Some (slot_content all_text pos (original_start ph))).
  { unfold nt1. rewrite lookup_zip_with, Hj, gap_pieces_lookup, Hpos. simpl.
    f_equal. apply slot_content_step; lia. }
  destruct (allocate_portions nt1 tpl ph (original_start ph)
    (original_start ph + original_length ph))
    as (P & HP & -> & _ & Hsupp); [|done|].
  { repeat split; try done; lia. }
  simpl.
  destruct (IH (zip_with app nt1 P)
    (original_start ph + original_length ph) Hout Hchain)
    as (nt' & cur' & -> & Hlen' & Hcur' & Hj'); [lia| | |].
  { rewrite length_zip_with. lia. }
  { destruct (lookup_lt_is_Some_2 P j) as [pj Hpj].
    { rewrite HP. by eapply lookup_lt_Some. }
    rewrite lookup_zip_with, Hj1, Hpj. simpl. f_equal.
    assert (pj = []) as ->.
    { destruct (decide (pj = [])) as [|Hne]; [done|].
      destruct (Hsupp j pos pj Hpos Hpj Hne) as (? & ? & _).
      destruct Hout1; lia. }
    rewrite app_nil_r.
    apply slot_content_outside; [done|lia|exact Hout1]. }
  exists nt', cur'. split; [done|]. split; [done|]. split; [lia|done].
Qed.

(** X13.  A run away from the placeholders keeps its characters: under the
    hypotheses of C1, a run whose slot holds no character of the span of any
    occurrence is, in the result of the reflow, the run it was when the
    resolver lists no occurrence, and otherwise that run assigned its own
    text, which the setter stores with its control characters escaped.  It is
    the run it was when its text holds no such character. *)
Theorem untouched_runs_keep_text {Value Style} (py_str : Value -> text)
    fuel context (runs : list (Run Style)) j r pos :
  small_enough py_str context (concat (map run_text runs)) ->
  (length (concat (map run_text runs)) <= fuel)%nat ->
  runs !! j = Some r ->
  PptProcessor.build_positions runs 0 0 !! j = Some pos ->
  (forall ph,
     ph ∈ (TemplateRenderer.cal_render_position py_str context
             (concat (map run_text runs))).2 ->
     outside_span pos ph) ->
  exists runs',
    PptProcessor.replace_paragraph_runs py_str fuel context runs = Some runs'
    /\ runs' !! j
       = Some match (TemplateRenderer.cal_render_position py_str context
                       (concat (map run_text runs))).2 with
              | [] => r
              | _ :: _ => set_run_text (run_text r) r
              end
    /\ (ctrl_free (run_text r) -> runs' !! j = Some r).
Proof.
  intros Hsmall Hfuel Hr Hpos Hout.
  unfold PptProcessor.replace_paragraph_runs.
  rewrite build_positions_texts.
  set (all_text := concat (map run_text runs)) in *.
  destruct (cal_render_position_spec py_str context all_text)
    as (pl & Hcal & HF).
  rewrite Hcal in Hout |- *. simpl in Hout.
  simpl snd. destruct pl as [|ph pl]; [by exists runs|].
  set (tpl := PptProcessor.build_positions runs 0 0) in *.
  assert (Hc : contiguous 0 tpl) by apply build_positions_contiguous.
  assert (Hend : slots_end 0 tpl = py_len all_text).
  { unfold tpl. rewrite build_positions_end. fold all_text. lia. }
  assert (Htpl : length tpl = length runs) by apply build_positions_length.
  destruct (contiguous_lookup _ _ _ _ Hc Hpos) as (Hs0 & Hl0 & He0).
  pose proof (occurrences_chain py_str context 0 (py_len all_text) _ _ HF
    (finditer_chain all_text)) as Hchain.
  pose proof (occurrences_small py_str context all_text _ _ Hsmall HF)
    as Hvals.
  destruct (placeholder_loop_outside fuel tpl all_text (ph :: pl)
    (replicate (length tpl) []) 0 j pos)
    as (nt1 & cur & -> & Hlen1 & Hcur & Hj1);
    [done|done|by destruct Hsmall|done|done|done| |done|lia| | |].
  { apply Forall_forall. exact Hout. }
  { apply length_replicate. }
  { rewrite (proj2 (lookup_replicate (length tpl) ([] : text) [] j)).
    - f_equal. unfold slot_content. symmetry.
      unfold slot_end. apply py_slice_empty; lia.
    - split; [done|]. by eapply lookup_lt_Some. }
  simpl. unfold PptProcessor._copy_non_placeholder.
  rewrite copy_loop_spec; [|done|lia|lia|done|unfold py_len in *; lia].
  simpl.
  set (nt2 := zip_with app nt1
                (gap_pieces all_text tpl cur (py_len all_text))).
  assert (Hlen2 : length nt2 = length tpl).
  { unfold nt2. rewrite length_zip_with, gap_pieces_length. lia. }
  assert (Hj2 : nt2 !! j = Some (run_text r)).
  { unfold nt2. rewrite lookup_zip_with, Hj1, gap_pieces_lookup, Hpos. simpl.
    f_equal. rewrite slot_content_step by lia.
    unfold slot_content.
    replace (Z.min (Z.max (py_len all_text) (slot_start pos)) (slot_end pos))
      with (slot_end pos) by (unfold slot_end in *; lia).
    by apply (build_positions_slice runs j). }
  rewrite (commit_texts_spec tpl runs 0 nt2); [|..|lia].
  - eexists. split; [done|]. rewrite take_0, drop_0. simpl.
    assert (Hres : zip_with set_run_text nt2 runs !! j
                   = Some (set_run_text (run_text r) r)).
    { by rewrite lookup_zip_with, Hj2, Hr. }
    split; [done|]. intros Hfree. rewrite Hres. unfold set_run_text.
    rewrite escape_ctrl_chars_free by done. by destruct r.
  - intros i p Hp.
    by destruct (build_positions_lookup _ _ _ _ _ Hp) as (-> & _).
  - done.
Qed.

Lemma braces_context_small all_text :
  py_len all_text < 2 ^ 53 -> small_enough id braces_context all_text.
Proof.
  intros Hlen. split; [done|].
  intros key v Hv. unfold braces_context in Hv.
  apply lookup_singleton_Some in Hv as [_ <-]. by vm_compute.
Defined.

Lemma untouched_runs_keep_text_witness :
  exists runs',
    PptProcessor.replace_paragraph_runs id 15 braces_context framed_runs
    = Some runs'
    /\ runs' !! 2%nat
       = Some match (TemplateRenderer.cal_render_position id braces_context
                       (concat (map run_text framed_runs))).2 with
              | [] => {| run_text := txt " end"; run_style := tt |}
              | _ :: _ =>
                  set_run_text
                    (run_text {| run_text := txt " end"; run_style := tt |})
                    {| run_text := txt " end"; run_style := tt |}
              end
    /\ (ctrl_free (run_text {| run_text := txt " end"; run_style := tt |}) ->
        runs' !! 2%nat
        = Some {| run_text := txt " end"; run_style := tt |}).
Proof.
  apply (untouched_runs_keep_text id 15 braces_context framed_runs 2
           {| run_text := txt " end"; run_style := tt |}
           {| slot_start := 11; slot_len := 4; slot_run := 2 |}).
  - apply braces_context_small. by vm_compute.
  - vm_compute. lia.
  - reflexivity.
  - reflexivity.
  - intros ph Hin. vm_compute in Hin.
    apply list_elem_of_singleton in Hin as ->. right. simpl. lia.
Defined.

(** X14.  On a paragraph of one run the reflow is the plain substitution:
    under the hypotheses of C1 the run is left as it is when the resolver
    lists no occurrence in its text, and is otherwise assigned the rendered
    text of its text, which the setter stores with its control characters
    escaped. *)
Theorem single_run_paragraph {Value Style} (py_str : Value -> text) fuel
    context (r : Run Style) :
  small_enough py_str context (run_text r) ->
  (length (run_text r) <= fuel)%nat ->
  PptProcessor.replace_paragraph_runs py_str fuel context [r]
  = Some [match (TemplateRenderer.cal_render_position py_str context
                   (run_text r)).2 with
          | [] => r
          | _ :: _ =>
              set_run_text
                (TemplateRenderer.cal_render_position py_str context
                   (run_text r)).1 r
          end].
Proof.
  intros Hsmall Hfuel.
  assert (Htext : concat (map run_text [r]) = run_text r).
  { simpl. apply app_nil_r. }
  destruct (TemplateRenderer.cal_render_position py_str context
    (run_text r)) as [rendered pl] eqn:Hcal.
  simpl fst. simpl snd. destruct pl as [|ph pl].
  { apply reflow_no_occurrence. by rewrite Htext, Hcal. }
  destruct (reflow_main py_str fuel context [r])
    as (nts & _ & Hlen & -> & Hcat & _).
  { by rewrite Htext. }
  { by rewrite Htext. }
  { by rewrite Htext, Hcal. }
  rewrite Htext, Hcal in Hcat. destruct nts as [|t [|t' nts]]; try done.
  simpl in Hcat. rewrite app_nil_r in Hcat. by subst t.
Qed.

Lemma single_run_paragraph_witness :
  PptProcessor.replace_paragraph_runs id 22 sales_context
    [ {| run_text := txt "Sales: {{sales}} unit"; run_style := tt |} ]
  = Some [match (TemplateRenderer.cal_render_position id sales_context
                   (run_text {| run_text := txt "Sales: {{sales}} unit";
                                run_style := tt |})).2 with
          | [] => {| run_text := txt "Sales: {{sales}} unit";
                     run_style := tt |}
          | _ :: _ =>
              set_run_text
                (TemplateRenderer.cal_render_position id sales_context
                   (run_text {| run_text := txt "Sales: {{sales}} unit";
                                run_style := tt |})).1
                {| run_text := txt "Sales: {{sales}} unit"; run_style := tt |}
          end].
Proof.
  apply (single_run_paragraph id 22 sales_context
           {| run_text := txt "Sales: {{sales}} unit"; run_style := tt |}).
  - split; [by vm_compute|].
    intros key v Hv. unfold sales_context in Hv.
    apply lookup_singleton_Some in Hv as [_ <-]. by vm_compute.
  - vm_compute. lia.
Defined.

(** X15.  The rounded share is a natural number: for a part, a total and a
    value length below [2 ^ 53], with a total that is not zero,
    [round(part_len / total_covered_len * rend_len)] raises nothing and is
    not negative, and the share of an empty part is zero. *)
Theorem rounded_share_is_natural part_len total_covered_len rend_len :
  0 <= part_len < 2 ^ 53 -> 0 < total_covered_len < 2 ^ 53 ->
  0 <= rend_len < 2 ^ 53 ->
  exists k,
    PptProcessor.round_share part_len total_covered_len rend_len = Some k /\
    0 <= k /\ (part_len = 0 -> k = 0).
Proof.
  intros Hp Ht HL.
  destruct (round_share_nonneg part_len total_covered_len rend_len Hp Ht HL)
    as (k & Hk & Hk0).
  exists k. split; [done|]. split; [done|]. intros ->.
  rewrite round_share_zero in Hk by done. congruence.
Qed.

Lemma rounded_share_is_natural_witness :
  exists k,
    PptProcessor.round_share 4 9 5 = Some k /\ 0 <= k /\ (4 = 0 -> k = 0).
Proof.
  apply (rounded_share_is_natural 4 9 5); lia.
Defined.

(** ** The traversal of the presentation *)

Lemma mapM_Forall2 {A B} (f : A -> option B) (R : A -> B -> Prop) l :
  Forall (fun x => exists y, f x = Some y /\ R x y) l ->
  exists k, mapM f l = Some k /\ Forall2 R l k.
Proof.
  induction 1 as [|x l (y & Hy & HR) _ (k & Hk & HF)].
  - exists []. by split; [|constructor].
  - exists (y :: k). split; [|by constructor].
    simpl. rewrite Hy. simpl. by rewrite Hk.
Qed.

Lemma mapM_Some_rel {A B} (f : A -> option B) (R : A -> B -> Prop) l k :
  mapM f l = Some k -> (forall x y, f x = Some y -> R x y) -> Forall2 R l k.
Proof.
  intros Hk HR. apply mapM_Some_1 in Hk.
  eapply Forall2_impl; [exact Hk|]. exact HR.
Qed.

Lemma mapM_id {A} (f : A -> option A) l :
  Forall (fun x => f x = Some x) l -> mapM f l = Some l.
Proof.
  induction 1 as [|x l Hx _ IH]; [done|].
  simpl. rewrite Hx. simpl. by rewrite IH.
Qed.

Lemma replace_no_match {Value Style} (py_str : Value -> text) fuel context
    (runs : list (Run Style)) :
  finditer (concat (map run_text runs)) = [] ->
  PptProcessor.replace_paragraph_runs py_str fuel context runs = Some runs.
Proof.
  intros Hnone. unfold PptProcessor.replace_paragraph_runs.
  rewrite build_positions_texts.
  by rewrite (resolver_no_match py_str context _ Hnone).
Qed.

(** X16.  The traversal keeps the structure of the presentation: when it
    returns, the result has the same slides with the same shapes in the same
    order; a shape without a text frame is as it was, and a text frame has
    the same paragraphs, each with as many runs as before and the same
    styles. *)
Theorem process_keeps_structure {Value Style Other : Type}
    (py_str : Value -> text) fuel context
    (slides slides' : list (list (Shape Style Other))) :
  PptProcessor.process_slides py_str fuel context slides = Some slides' ->
  Forall2 (Forall2 (shape_rel (fun paragraph paragraph' =>
                                 length paragraph' = length paragraph /\
                                 map run_style paragraph'
                                 = map run_style paragraph)))
    slides slides'.
Proof.
  intros Hp. eapply mapM_Some_rel; [exact Hp|].
  intros slide slide' Hslide. eapply mapM_Some_rel; [exact Hslide|].
  intros [paragraphs|content] shape' Hshape; simpl in Hshape.
  - destruct (mapM _ paragraphs) as [paragraphs'|] eqn:Hps; simplify_eq/=.
    eapply mapM_Some_rel; [exact Hps|].
    intros [|r paragraph] paragraph' Hpar; simpl in Hpar.
    + by simplify_eq.
    + by apply (replace_paragraph_runs_frame py_str fuel context).
  - by simplify_eq.
Qed.

Lemma process_keeps_structure_witness :
  Forall2 (Forall2 (shape_rel (fun paragraph paragraph' =>
                                 length paragraph' = length paragraph /\
                                 map run_style paragraph'
                                 = map run_style paragraph)))
    sample_slides
    [ [ TextShape [ [ {| run_text := txt "Sales: 98"; run_style := tt |};
                      {| run_text := txt "0.0 unit"; run_style := tt |} ];
                    [] ];
        OtherShape 7%nat ];
      [ TextShape [ [ {| run_text := txt "Total "; run_style := tt |};
                      {| run_text := []; run_style := tt |};
                      {| run_text := txt " end"; run_style := tt |} ] ] ] ].
Proof.
  apply (process_keeps_structure id 25 sales_context sample_slides).
  by vm_compute.
Defined.

Lemma process_paragraph_renders {Value Style} (py_str : Value -> text) fuel
    context (paragraph : list (Run Style)) :
  small_enough py_str context (concat (map run_text paragraph)) ->
  (length (concat (map run_text paragraph)) <= fuel)%nat ->
  exists paragraph',
    PptProcessor.process_paragraph py_str fuel context paragraph
    = Some paragraph' /\
    concat (map run_text paragraph')
    = reflowed_text py_str context (concat (map run_text paragraph)).
Proof.
  intros Hsmall Hfuel. destruct paragraph as [|r paragraph].
  { exists []. split; [done|]. unfold reflowed_text.
    by rewrite resolver_no_match. }
  by apply reflow_joined.
Qed.

(** X17.  The traversal renders every paragraph: with enough fuel, and on
    paragraphs and context values shorter than [2 ^ 53] characters, it
    returns, and the joined texts of every paragraph of every text frame of
    the result are the [reflowed_text] of the joined texts of the paragraph
    it was: the rendered text, with its control characters escaped by the
    setter when the paragraph holds a placeholder. *)
Theorem process_renders_every_paragraph {Value Style Other : Type}
    (py_str : Value -> text) fuel context
    (slides : list (list (Shape Style Other))) :
  Forall (Forall (shape_all (fun paragraph =>
     small_enough py_str context (concat (map run_text paragraph)) /\
     (length (concat (map run_text paragraph)) <= fuel)%nat))) slides ->
  exists slides',
    PptProcessor.process_slides py_str fuel context slides = Some slides' /\
    Forall2 (Forall2 (shape_rel (fun paragraph paragraph' =>
       concat (map run_text paragraph')
       = reflowed_text py_str context (concat (map run_text paragraph)))))
      slides slides'.
Proof.
  intros Hall. apply mapM_Forall2.
  eapply Forall_impl; [exact Hall|]. intros slide Hslide.
  apply mapM_Forall2.
  eapply Forall_impl; [exact Hslide|]. intros [paragraphs|content] Hshape.
  - simpl in Hshape.
    destruct (mapM_Forall2
      (PptProcessor.process_paragraph py_str fuel context)
      (fun paragraph paragraph' =>
         concat (map run_text paragraph')
         = reflowed_text py_str context (concat (map run_text paragraph)))
      paragraphs)
      as (paragraphs' & Hps & HF).
    { eapply Forall_impl; [exact Hshape|]. intros paragraph [Hsmall Hfuel].
      by apply process_paragraph_renders. }
    exists (TextShape paragraphs'). simpl. by rewrite Hps.
  - by exists (OtherShape content).
Qed.

Lemma sales_context_small all_text :
  py_len all_text < 2 ^ 53 -> small_enough id sales_context all_text.
Proof.
  intros Hlen. split; [done|].
  intros key v Hv. unfold sales_context in Hv.
  apply lookup_singleton_Some in Hv as [_ <-]. by vm_compute.
Defined.

Lemma process_renders_every_paragraph_witness :
  exists slides',
    PptProcessor.process_slides id 25 sales_context sample_slides
    = Some slides' /\
    Forall2 (Forall2 (shape_rel (fun paragraph paragraph' =>
       concat (map run_text paragraph')
       = reflowed_text id sales_context (concat (map run_text paragraph)))))
      sample_slides slides'.
Proof.
  apply (process_renders_every_paragraph id 25 sales_context sample_slides).
  unfold sample_slides.
  repeat (apply Forall_cons; split); try apply Forall_nil; simpl;
    try exact I;
    repeat (apply Forall_cons; split); try apply Forall_nil;
    (split; [apply sales_context_small; by vm_compute | vm_compute; lia]).
Defined.

(** X18.  A presentation without placeholders is left as it is: when the
    pattern has no match in the joined texts of any paragraph, the traversal
    returns the presentation it was given, whatever the fuel and the
    context. *)
Theorem process_without_placeholders {Value Style Other : Type}
    (py_str : Value -> text) fuel context
    (slides : list (list (Shape Style Other))) :
  Forall (Forall (shape_all (fun paragraph =>
     finditer (concat (map run_text paragraph)) = []))) slides ->
  PptProcessor.process_slides py_str fuel context slides = Some slides.
Proof.
  intros Hall. apply mapM_id.
  eapply Forall_impl; [exact Hall|]. intros slide Hslide. apply mapM_id.
  eapply Forall_impl; [exact Hslide|]. intros [paragraphs|content] Hshape;
    [|done].
  simpl in *. rewrite mapM_id; [done|].
  eapply Forall_impl; [exact Hshape|]. intros [|r paragraph] Hnone; [done|].
  by apply replace_no_match.
Qed.

Lemma process_without_placeholders_witness :
  PptProcessor.process_slides id 0 sales_context plain_slides
  = Some plain_slides.
Proof.
  apply (process_without_placeholders id 0 sales_context plain_slides).
  unfold plain_slides.
  repeat (apply Forall_cons; split); try apply Forall_nil; simpl;
    try exact I;
    repeat (apply Forall_cons; split); try apply Forall_nil;
    by vm_compute.
Defined.

(** ** More edge behaviour *)

Lemma match_here_closing s g : match_here s = Some g -> rbrace ∈ s.
Proof.
  intros Hm. apply match_here_spec in Hm as (_ & _ & _ & _ & [Hc _] & _).
  apply list_elem_of_lookup. eauto.
Qed.

Lemma finditer_from_no_closing s pos skip :
  rbrace ∉ s -> finditer_from s pos skip = [].
Proof.
  revert pos skip. induction s as [|c s IH]; intros pos skip Hno; [done|].
  assert (Hs : rbrace ∉ s).
  { intros Hin. apply Hno. by apply elem_of_cons; right. }
  simpl. destruct skip as [|k]; [|by apply IH].
  destruct (match_here (c :: s)) as [g|] eqn:Hm; [|by apply IH].
  by apply match_here_closing in Hm.
Qed.

(** X19.  A placeholder that is not closed stays as it is: a text without a
    closing brace is rendered as it is, with no occurrence, whatever the
    context. *)
Theorem unterminated_placeholder_literal {Value} (py_str : Value -> text)
    context all_text :
  rbrace ∉ all_text ->
  TemplateRenderer.cal_render_position py_str context all_text
  = (all_text, []).
Proof.
  intros Hno. apply resolver_no_match. by apply finditer_from_no_closing.
Qed.

Lemma unterminated_placeholder_literal_witness :
  TemplateRenderer.cal_render_position id sales_context (txt "Sales: {{sales")
  = (txt "Sales: {{sales", []).
Proof.
  apply (unterminated_placeholder_literal id sales_context
           (txt "Sales: {{sales")).
  intros Hin. vm_compute in Hin.
  repeat (apply elem_of_cons in Hin as [Hin|Hin]; [discriminate Hin|]).
  by apply elem_of_nil in Hin.
Defined.

(** X20.  The allocation touches only the runs that hold a part of the
    span: it returns, and the text of a run whose slot ends at or before the
    start of the span, begins at or after its end, or is empty, is in the
    result what it was. *)
Theorem allocation_leaves_other_runs new_texts text_position_list ph
    orig_start orig_end j pos :
  allocation_ready text_position_list ph orig_start orig_end ->
  length new_texts = length text_position_list ->
  text_position_list !! j = Some pos ->
  slot_end pos <= orig_start \/ orig_end <= slot_start pos \/
  slot_len pos = 0 ->
  exists new_texts',
    PptProcessor._allocate_rendered_value new_texts text_position_list ph
      orig_start orig_end = Some new_texts' /\
    new_texts' !! j = new_texts !! j.
Proof.
  intros Hready Hlen Hpos Hout.
  destruct (allocate_portions new_texts _ _ _ _ Hready Hlen)
    as (P & HP & Heq & _ & Hsupp).
  eexists. split; [exact Heq|]. rewrite lookup_zip_with.
  destruct (lookup_lt_is_Some_2 new_texts j) as [t Ht].
  { rewrite Hlen. by eapply lookup_lt_Some. }
  destruct (lookup_lt_is_Some_2 P j) as [pj Hpj].
  { rewrite HP. by eapply lookup_lt_Some. }
  rewrite Ht, Hpj. simpl. f_equal.
  destruct (decide (pj = [])) as [->|Hne]; [apply app_nil_r|].
  destruct (Hsupp j pos pj Hpos Hpj Hne) as (? & ? & ?). lia.
Qed.

Lemma allocation_leaves_other_runs_witness :
  exists new_texts',
    PptProcessor._allocate_rendered_value
      [txt "Total "; []; []]
      (PptProcessor.build_positions framed_runs 0 0) braces_occurrence 6 11
    = Some new_texts' /\
    new_texts' !! 2%nat = [txt "Total "; []; []] !! 2%nat.
Proof.
  apply (allocation_leaves_other_runs [txt "Total "; []; []]
           (PptProcessor.build_positions framed_runs 0 0)
           braces_occurrence 6 11 2
           {| slot_start := 11; slot_len := 4; slot_run := 2 |}).
  - split; [apply build_positions_contiguous|].
    split; [lia|]. split; [by vm_compute|]. split; [by vm_compute|].
    split; [reflexivity | by vm_compute].
  - reflexivity.
  - reflexivity.
  - right. left. simpl. lia.
Defined.
